(** * goleptjson: the JSON parser of leptjson.go, embedded and verified

    The Go program is a cursor-driven recursive-descent parser.  The cursor
    is the [LeptContext] (the not yet consumed suffix of the input), the
    result is written through a [*LeptValue].  Both are mutated in place by
    the Go code; here every function takes the current context and value and
    returns the updated ones (explicit state passing).  Run-time panics
    ([panic(...)], an index or a slice out of range) are the second
    constructor of the [exec] monad, so "the code does not panic" is a
    statement about the result of the embedded function. *)

From Stdlib Require Import ZArith Bool Ascii String List Lia SpecFloat.
Import ListNotations.

Local Open Scope string_scope.
Local Open Scope Z_scope.

(** ** The Go run time: panics, strings, [int], [float64] *)

Module Go.

(** What a Go function of this package can panic with. *)
Inductive panic : Type :=
| ErrReachEnd          (* panic(ErrReachEnd), in expect *)
| ErrUnexpectChar      (* panic(ErrUnexpectChar), in expect *)
| NilValue             (* panic("... v is nil") of the API functions *)
| WrongType            (* panic("... typ is not ...") of the getters *)
| IndexOutOfRange      (* s[i] with i >= len(s) *)
| SliceOutOfRange.     (* s[i:] or s[:i] with i > len(s) *)

Inductive exec (A : Type) : Type :=
| Done (a : A)
| Panicked (p : panic).
Arguments Done {A} a.
Arguments Panicked {A} p.

Definition bind {A B : Type} (m : exec A) (k : A -> exec B) : exec B :=
  match m with
  | Done a => k a
  | Panicked p => Panicked p
  end.

(** [a || b] on conditions that may panic: [b] is evaluated only when [a]
    is false, as Go's short-circuit operator does. *)
Definition orM (a b : exec bool) : exec bool :=
  bind a (fun x => if x then Done true else b).

Definition andM (a b : exec bool) : exec bool :=
  bind a (fun x => if x then b else Done false).

(** A Go [string] is a sequence of bytes: [string] of [ascii]. *)

(** [s[i]] *)
Definition index (s : string) (i : nat) : exec ascii :=
  match String.get i s with
  | Some ch => Done ch
  | None => Panicked IndexOutOfRange
  end.

Fixpoint drop (i : nat) (s : string) : string :=
  match i, s with
  | O, _ => s
  | S i', String _ r => drop i' r
  | S _, EmptyString => EmptyString
  end.

Fixpoint take (i : nat) (s : string) : string :=
  match i, s with
  | O, _ => EmptyString
  | S i', String ch r => String ch (take i' r)
  | S _, EmptyString => EmptyString
  end.

(** [s[i:]] *)
Definition slice_from (s : string) (i : nat) : exec string :=
  if (i <=? String.length s)%nat then Done (drop i s) else Panicked SliceOutOfRange.

(** [s[:i]] *)
Definition slice_to (s : string) (i : nat) : exec string :=
  if (i <=? String.length s)%nat then Done (take i s) else Panicked SliceOutOfRange.

(** The numeric value of a byte. *)
Definition byte_val (ch : ascii) : Z := Z.of_N (N_of_ascii ch).

(** [int] is the 64-bit signed integer of the usual platforms: arithmetic
    wraps around. *)
Definition intSize : Z := 64.
Definition MaxInt : Z := 2 ^ (intSize - 1) - 1.
Definition MinInt : Z := - 2 ^ (intSize - 1).
Definition wrap (z : Z) : Z :=
  (z + 2 ^ (intSize - 1)) mod 2 ^ intSize - 2 ^ (intSize - 1).

(** [float64] is IEEE-754 binary64, with the operations of the Standard
    Library's executable specification of floating point numbers (rounding
    to nearest, ties to even). *)
Definition prec : Z := 53.
Definition emax : Z := 1024.
Definition float64 : Type := spec_float.

Definition f64_zero : float64 := S754_zero false.
(** [float64(i)] for an [int] [i] *)
Definition f64_of_int (i : Z) : float64 := binary_normalize prec emax i 0 false.
Definition f64_add (x y : float64) : float64 := SFadd prec emax x y.
Definition f64_mul (x y : float64) : float64 := SFmul prec emax x y.
Definition f64_div (x y : float64) : float64 := SFdiv prec emax x y.
Definition f64_neg (x : float64) : float64 := SFopp x.
(** The constant written [num/den] in decimal, as the compiler rounds it:
    the nearest [float64]. *)
Definition f64_const (num den : positive) : float64 :=
  SFdiv prec emax (S754_finite false num 0) (S754_finite false den 0).

End Go.
Import Go.

Declare Scope exec_scope.
Delimit Scope exec_scope with exec.
Notation "x <- e ;; k" := (bind e (fun x => k))
  (at level 61, e at next level, right associativity) : exec_scope.
Notation "' p <- e ;; k" := (bind e (fun x => let 'p := x in k))
  (at level 61, p pattern, e at next level, right associativity) : exec_scope.
Local Open Scope exec_scope.

(** Go's [error] values that the number parser produces. *)
Inductive error : Type :=
| IllegalInput         (* errors.New("illegal input") *)
| NotAnExp             (* errors.New("input is not a exp") *)
| NotAFrac             (* errors.New("input is not a frac") *)
| ErrSyntax            (* strconv.ErrSyntax, from Atoi *)
| ErrRange.            (* strconv.ErrRange, from Atoi *)

Definition isDigit (char : ascii) : bool :=
  (byte_val "0" <=? byte_val char) && (byte_val char <=? byte_val "9").

Definition isDigit1to9 (char : ascii) : bool :=
  (byte_val "1" <=? byte_val char) && (byte_val char <=? byte_val "9").

(** ** The two functions of Go's standard library that the parser calls *)

Module strconv.

(** The digits of [s] read in base ten on top of [acc]; [None] at a byte
    that is no digit. *)
Fixpoint digits (s : string) (acc : Z) : option Z :=
  match s with
  | EmptyString => Some acc
  | String ch r =>
      if isDigit ch then digits r (acc * 10 + (byte_val ch - byte_val "0"))
      else None
  end.

(** [strconv.Atoi]: an optional sign and at least one decimal digit, the
    value in the range of [int]; [ErrSyntax] and [ErrRange] otherwise (on
    [ErrRange] the value is the nearest bound). *)
Definition Atoi (s : string) : Z * option error :=
  let '(neg, body) :=
    match s with
    | String ch r =>
        if (ch =? "-")%char then (true, r)
        else if (ch =? "+")%char then (false, r)
        else (false, s)
    | EmptyString => (false, s)
    end in
  match body with
  | EmptyString => (0, Some ErrSyntax)
  | _ =>
      match digits body 0 with
      | None => (0, Some ErrSyntax)
      | Some m =>
          let v := if neg : bool then - m else m in
          if v <? MinInt then (MinInt, Some ErrRange)
          else if MaxInt <? v then (MaxInt, Some ErrRange)
          else (v, None)
      end
  end.

End strconv.

Module math.

(** [pow10tab[i]] is the constant [1e<i>], [0 <= i < 32]. *)
Definition pow10tab (i : Z) : float64 := f64_const (Z.to_pos (10 ^ i)) 1.
(** [pow10postab32[i]] is the constant [1e<32*i>]. *)
Definition pow10postab32 (i : Z) : float64 := f64_const (Z.to_pos (10 ^ (32 * i))) 1.
(** [pow10negtab32[i]] is the constant [1e-<32*i>]. *)
Definition pow10negtab32 (i : Z) : float64 := f64_const 1 (Z.to_pos (10 ^ (32 * i))).

(** [math.Pow10(n)]: [10**n] from the three tables, [+Inf] above [308],
    [0] below [-323]. *)
Definition Pow10 (n : Z) : float64 :=
  if (0 <=? n) && (n <=? 308) then
    f64_mul (pow10postab32 (n / 32)) (pow10tab (n mod 32))
  else if (-323 <=? n) && (n <=? 0) then
    f64_div (pow10negtab32 ((- n) / 32)) (pow10tab ((- n) mod 32))
  else if 0 <? n then S754_infinity false
  else f64_zero.

End math.

(** ** leptjson.go: data *)

(** The parse events, untyped [int] constants numbered by [iota]. *)
Definition LeptParseOK : Z := 0.
Definition LeptParseExpectValue : Z := 1.
Definition LeptParseInvalidValue : Z := 2.
Definition LeptParseRootNotSingular : Z := 3.
Definition LeptParseNumberTooBig : Z := 4.
Definition LeptParseMissQuotationMark : Z := 5.
Definition LeptParseInvalidStringEscape : Z := 6.
Definition LeptParseInvalidStringChar : Z := 7.

Inductive LeptType : Type :=
| LeptNULL | LeptFALSE | LeptTRUE | LeptNUMBER | LeptSTRING | LeptARRAY | LeptOBJECT.

Record LeptValue : Type := mkLeptValue {
  typ : LeptType;
  n : float64;
  s : string
}.

Definition NewLeptValue : LeptValue :=
  {| typ := LeptFALSE; n := f64_zero; s := "" |}.

Record LeptContext : Type := mkLeptContext {
  json : string
}.

Definition NewLeptContext (json : string) : LeptContext :=
  {| json := json |}.

(** The assignments through the pointers [v] and [c]. *)
Definition set_typ (v : LeptValue) (t : LeptType) : LeptValue :=
  {| typ := t; n := n v; s := s v |}.
Definition set_n (v : LeptValue) (x : float64) : LeptValue :=
  {| typ := typ v; n := x; s := s v |}.
Definition set_s (v : LeptValue) (x : string) : LeptValue :=
  {| typ := typ v; n := n v; s := x |}.

(** The bytes that the source writes with an escape or between quotes. *)
Definition quotation_mark : ascii := "034".
Definition reverse_solidus : ascii := "092".
Definition backspace : ascii := "008".
Definition form_feed : ascii := "012".
Definition line_feed : ascii := "010".
Definition carriage_return : ascii := "013".
Definition tab : ascii := "009".

(** ** leptjson.go: cursor, white space, literals *)

Definition expect (c : LeptContext) (ch : ascii) : exec LeptContext :=
  if (String.length (json c) =? 0)%nat then Panicked ErrReachEnd
  else
    first <- index (json c) 0 ;;
    if negb (first =? ch)%char then Panicked ErrUnexpectChar
    else
      j <- slice_from (json c) 1 ;;
      Done {| json := j |}.

Definition isSpace (ch : ascii) : bool :=
  (ch =? " ")%char || (ch =? tab)%char || (ch =? line_feed)%char
  || (ch =? carriage_return)%char.

(** The value of [i] when the loop of [LeptParseWhitespace] ends: the
    length of the longest prefix of white space. *)
Fixpoint whitespace_run (s : string) : nat :=
  match s with
  | String ch r => if isSpace ch then S (whitespace_run r) else O
  | EmptyString => O
  end.

Definition LeptParseWhitespace (c : LeptContext) : exec LeptContext :=
  let i := whitespace_run (json c) in
  j <- slice_from (json c) i ;;
  Done {| json := j |}.

(** [c.json[i] != ch] *)
Definition differs (c : LeptContext) (i : nat) (ch : ascii) : exec bool :=
  b <- index (json c) i ;;
  Done (negb (b =? ch)%char).

Definition LeptParseNull (c : LeptContext) (v : LeptValue)
  : exec (Z * LeptContext * LeptValue) :=
  c <- expect c "n" ;;
  let n := String.length (json c) in
  let want := 4%nat in
  if (n <? want - 1)%nat then Done (LeptParseInvalidValue, c, v)
  else
    bad <- orM (differs c 0 "u") (orM (differs c 1 "l") (differs c 2 "l")) ;;
    if bad : bool then Done (LeptParseInvalidValue, c, v)
    else
      j <- slice_from (json c) (want - 1) ;;
      Done (LeptParseOK, {| json := j |}, set_typ v LeptNULL).

Definition LeptParseTrue (c : LeptContext) (v : LeptValue)
  : exec (Z * LeptContext * LeptValue) :=
  c <- expect c "t" ;;
  let n := String.length (json c) in
  let want := 4%nat in
  if (n <? want - 1)%nat then Done (LeptParseInvalidValue, c, v)
  else
    bad <- orM (differs c 0 "r") (orM (differs c 1 "u") (differs c 2 "e")) ;;
    if bad : bool then Done (LeptParseInvalidValue, c, v)
    else
      j <- slice_from (json c) (want - 1) ;;
      Done (LeptParseOK, {| json := j |}, set_typ v LeptTRUE).

Definition LeptParseFalse (c : LeptContext) (v : LeptValue)
  : exec (Z * LeptContext * LeptValue) :=
  c <- expect c "f" ;;
  let n := String.length (json c) in
  let want := 5%nat in
  if (n <? want - 1)%nat then Done (LeptParseInvalidValue, c, v)
  else
    bad <- orM (differs c 0 "a")
             (orM (differs c 1 "l") (orM (differs c 2 "s") (differs c 3 "e"))) ;;
    if bad : bool then Done (LeptParseInvalidValue, c, v)
    else
      j <- slice_from (json c) (want - 1) ;;
      Done (LeptParseOK, {| json := j |}, set_typ v LeptFALSE).

(** The loop of [LeptParseLiteral], [for i := 0; i < want-1; i++], from
    index [i] with [k] rounds left: [true] when a byte differs. *)
Fixpoint literal_mismatch (c : LeptContext) (literal : string) (i k : nat)
  : exec bool :=
  match k with
  | O => Done false
  | S k' =>
      a <- index (json c) i ;;
      b <- index literal (i + 1) ;;
      if negb (a =? b)%char then Done true
      else literal_mismatch c literal (i + 1) k'
  end.

Definition LeptParseLiteral (c : LeptContext) (v : LeptValue)
  (literal : string) (typ : LeptType) : exec (Z * LeptContext * LeptValue) :=
  l0 <- index literal 0 ;;
  c <- expect c l0 ;;
  let n := String.length (json c) in
  let want := String.length literal in
  if (n <? want - 1)%nat then Done (LeptParseInvalidValue, c, v)
  else
    bad <- literal_mismatch c literal 0 (want - 1) ;;
    if bad : bool then Done (LeptParseInvalidValue, c, v)
    else
      j <- slice_from (json c) (want - 1) ;;
      Done (LeptParseOK, {| json := j |}, set_typ v typ).

(** ** leptjson.go: numbers *)

(** The value of [i] when the loop of [parseInteger] ends: the length of
    the longest prefix of digits. *)
Fixpoint digit_run (input : string) : nat :=
  match input with
  | String ch r => if isDigit ch then S (digit_run r) else O
  | EmptyString => O
  end.

Definition parseInteger (input : string) : exec (string * Z * option error) :=
  let i := digit_run input in
  head <- slice_to input i ;;
  let '(integer, err) := strconv.Atoi head in
  match err with
  | Some e => Done ("", 0, Some e)
  | None =>
      rest <- slice_from input i ;;
      Done (rest, integer, None)
  end.

Definition parseFrac (input : string) : exec (string * Z * option error) :=
  i0 <- index input 0 ;;
  if (i0 =? ".")%char then
    rest <- slice_from input 1 ;;
    parseInteger rest
  else Done ("", 0, Some NotAFrac).

(** [input[i] == ch] *)
Definition is_at (input : string) (i : nat) (ch : ascii) : exec bool :=
  b <- index input i ;;
  Done (b =? ch)%char.

Definition parseExp (input : string) : exec (string * Z * option error) :=
  isE <- orM (is_at input 0 "e") (is_at input 0 "E") ;;
  if isE : bool then
    if (String.length input =? 1)%nat then Done ("", 0, Some NotAnExp)
    else
      signed <- orM (is_at input 1 "-") (is_at input 1 "+") ;;
      expNeg <- (if signed : bool then is_at input 1 "-" else Done false) ;;
      input <- (if signed : bool then slice_from input 2 else slice_from input 1) ;;
      '(input, exp, err) <- parseInteger input ;;
      match err with
      | Some e => Done ("", 0, Some e)
      | None =>
          if expNeg : bool then Done (input, wrap (- exp), err)
          else Done (input, exp, err)
      end
  else Done ("", 0, Some NotAnExp).

(** [frac] after the loop [for j := n - 1; j > len(input); j-- { frac *= 10 }]:
    one multiplication of the [int] for each of the [j - stop] rounds. *)
Definition frac_loop (j stop : nat) (frac : Z) : Z :=
  Nat.iter (j - stop) (fun frac => wrap (frac * 10)) frac.

(** [if neg { return -ret, "", nil }; return ret, "", nil] *)
Definition return_signed (neg : bool) (ret : float64)
  : exec (float64 * string * option error) :=
  if neg then Done (f64_neg ret, "", None) else Done (ret, "", None).

(** The second half of [strtod], from the comment [// frac or exp] on:
    [integer] has been read and [input], which is not empty, is what
    follows its digits. *)
Definition strtod_frac_exp (neg : bool) (integer : Z) (input : string)
  : exec (float64 * string * option error) :=
  let n := String.length input in
  let ret := f64_of_int integer in
  isDot <- is_at input 0 "." ;;
  if isDot : bool then
    '(input, decimal, err) <- parseFrac input ;;
    match err with
    | Some e => Done (ret, "", Some e)
    | None =>
        let frac := frac_loop (n - 1) (String.length input) 1 in
        let ret := f64_add ret (f64_div (f64_of_int decimal) (f64_of_int frac)) in
        if (String.length input =? 0)%nat then return_signed neg ret
        else
          isE <- orM (is_at input 0 "e") (is_at input 0 "E") ;;
          if negb isE then Done (ret, "", Some IllegalInput)
          else
            '(input, exp, err) <- parseExp input ;;
            match err with
            | Some _ => Done (ret, "", Some IllegalInput)
            | None =>
                if negb (String.length input =? 0)%nat
                then Done (ret, "", Some IllegalInput)
                else return_signed neg (f64_mul ret (math.Pow10 exp))
            end
    end
  else
    isE <- orM (is_at input 0 "e") (is_at input 0 "E") ;;
    if isE : bool then
      '(input, exp, err) <- parseExp input ;;
      match err with
      | Some e => Done (ret, "", Some e)
      | None =>
          if negb (String.length input =? 0)%nat
          then Done (ret, "", Some IllegalInput)
          else return_signed neg (f64_mul ret (math.Pow10 exp))
      end
    else Done (ret, "", Some IllegalInput).

Definition strtod (input : string) : exec (float64 * string * option error) :=
  first <- index input 0 ;;
  let neg := (first =? "-")%char in
  input <- (if neg then slice_from input 1 else Done input) ;;
  let ret := f64_zero in
  let n := String.length input in
  if (n =? 0)%nat then Done (ret, "", Some IllegalInput)
  else
    zero1 <- andM (is_at input 0 "0") (Done (n =? 1)%nat) ;;
    if zero1 : bool then Done (ret, "", None)
    else
      zeroLead <- andM (is_at input 0 "0") (andM (Done (1 <? n)%nat)
                    (b <- orM (is_at input 1 ".")
                           (orM (is_at input 1 "e") (is_at input 1 "E")) ;;
                     Done (negb b))) ;;
      if zeroLead : bool then Done (ret, "", Some IllegalInput)
      else
        i0 <- index input 0 ;;
        if negb (isDigit i0) then Done (ret, "", Some IllegalInput)
        else
          '(input, integer, err) <- parseInteger input ;;
          match err with
          | Some e => Done (ret, "", Some e)
          | None =>
              let n := String.length input in
              if (n <=? 0)%nat then return_signed neg (f64_of_int integer)
              else strtod_frac_exp neg integer input
          end.

Definition LeptParseNumber (c : LeptContext) (v : LeptValue)
  : exec (Z * LeptContext * LeptValue) :=
  '(x, end_, err) <- strtod (json c) ;;
  let v := set_n v x in
  match err with
  | Some _ => Done (LeptParseInvalidValue, c, v)
  | None => Done (LeptParseOK, {| json := end_ |}, set_typ v LeptNUMBER)
  end.

(** ** leptjson.go: accessors *)

(** A [*LeptValue] that may be [nil] is an [option LeptValue]. *)

Definition LeptGetType (v : option LeptValue) : exec LeptType :=
  match v with
  | None => Panicked NilValue
  | Some v => Done (typ v)
  end.

Definition LeptSetNull (v : option LeptValue) : exec LeptValue :=
  match v with
  | None => Panicked NilValue
  | Some v => Done (set_typ v LeptNULL)
  end.

Definition LeptSetNumber (v : option LeptValue) (x : float64) : exec LeptValue :=
  match v with
  | None => Panicked NilValue
  | Some v => Done (set_typ (set_n v x) LeptNUMBER)
  end.

Definition LeptSetString (v : option LeptValue) (x : string) : exec LeptValue :=
  match v with
  | None => Panicked NilValue
  | Some v => Done (set_typ (set_s v x) LeptSTRING)
  end.

Definition LeptGetString (v : option LeptValue) : exec string :=
  match v with
  | None => Panicked NilValue
  | Some v =>
      match typ v with
      | LeptSTRING => Done (s v)
      | _ => Panicked WrongType
      end
  end.

Definition LeptGetNumber (v : option LeptValue) : exec float64 :=
  match v with
  | None => Panicked NilValue
  | Some v =>
      match typ v with
      | LeptNUMBER => Done (n v)
      | _ => Panicked WrongType
      end
  end.

Definition LeptGetBoolean (v : option LeptValue) : exec Z :=
  match v with
  | None => Panicked NilValue
  | Some v =>
      match typ v with
      | LeptFALSE => Done 0
      | LeptTRUE => Done 1
      | _ => Panicked WrongType
      end
  end.

Definition LeptSetBoolean (v : option LeptValue) (b : Z) : exec LeptValue :=
  match v with
  | None => Panicked NilValue
  | Some v =>
      if b =? 0 then Done (set_typ v LeptFALSE) else Done (set_typ v LeptTRUE)
  end.

Definition LeptGetStringLength (v : option LeptValue) : exec Z :=
  match v with
  | None => Panicked NilValue
  | Some v =>
      match typ v with
      | LeptSTRING => Done (Z.of_nat (String.length (s v)))
      | _ => Panicked WrongType
      end
  end.

(** ** leptjson.go: strings *)

(** The inner [switch c.json[i+1]]: what the escape appends to the buffer,
    [None] in the [default] case. *)
Definition escape (ch : ascii) : option string :=
  if (ch =? quotation_mark)%char then Some (String quotation_mark "")
  else if (ch =? reverse_solidus)%char then Some (String reverse_solidus "")
  else if (ch =? "b")%char then Some (String backspace "")
  else if (ch =? "f")%char then Some (String form_feed "")
  else if (ch =? "n")%char then Some (String line_feed "")
  else if (ch =? "r")%char then Some (String carriage_return "")
  else if (ch =? "t")%char then Some (String tab "")
  else if (ch =? "/")%char then Some "/"
  else None.

(** The loop of [LeptParseString], [for i, n := 0, len(c.json); i < n; i++],
    as a recursion on the bytes not yet visited, [rest = c.json[i:]];
    [stack] is the content of the buffer.  The escape case visits two
    bytes ([i++] in the body and in the loop header). *)
Fixpoint string_loop (c : LeptContext) (v : LeptValue) (rest stack : string)
  {struct rest} : exec (Z * LeptContext * LeptValue) :=
  match rest with
  | EmptyString => Done (LeptParseMissQuotationMark, c, v)
  | String ch rest1 =>
      if (ch =? quotation_mark)%char then
        v <- LeptSetString (Some v) stack ;;
        Done (LeptParseOK, {| json := rest1 |}, v)
      else if (ch =? reverse_solidus)%char then
        match rest1 with
        | EmptyString => Done (LeptParseInvalidStringEscape, c, v)
        | String e rest2 =>
            match escape e with
            | Some w => string_loop c v rest2 (stack ++ w)
            | None => Done (LeptParseInvalidStringEscape, c, v)
            end
        end
      else if byte_val ch <? 32 then Done (LeptParseInvalidStringChar, c, v)
      else string_loop c v rest1 (stack ++ String ch "")
  end.

Definition LeptParseString (c : LeptContext) (v : LeptValue)
  : exec (Z * LeptContext * LeptValue) :=
  c <- expect c quotation_mark ;;
  string_loop c v (json c) "".

(** ** leptjson.go: values and the entry point *)

Definition LeptParseValue (c : LeptContext) (v : LeptValue)
  : exec (Z * LeptContext * LeptValue) :=
  let n := String.length (json c) in
  if (n =? 0)%nat then Done (LeptParseExpectValue, c, v)
  else
    c0 <- index (json c) 0 ;;
    if (c0 =? "n")%char then LeptParseNull c v
    else if (c0 =? "t")%char then LeptParseTrue c v
    else if (c0 =? "f")%char then LeptParseFalse c v
    else if (c0 =? quotation_mark)%char then LeptParseString c v
    else LeptParseNumber c v.

Definition LeptParse (v : option LeptValue) (text : string)
  : exec (Z * LeptValue) :=
  match v with
  | None => Panicked NilValue
  | Some v =>
      let c := NewLeptContext text in
      let v := set_typ v LeptNULL in
      c <- LeptParseWhitespace c ;;
      '(ret, c, v) <- LeptParseValue c v ;;
      if negb (ret =? LeptParseOK) then Done (ret, v)
      else
        c <- LeptParseWhitespace c ;;
        if negb (String.length (json c) =? 0)%nat
        then Done (LeptParseRootNotSingular, v)
        else Done (LeptParseOK, v)
  end.

(** ** Vocabulary of the statements *)

(** Every byte of [s] satisfies [p]. *)
Fixpoint all_bytes (p : ascii -> bool) (s : string) : bool :=
  match s with
  | EmptyString => true
  | String ch r => p ch && all_bytes p r
  end.

(** [s] is empty or its first byte does not satisfy [p]. *)
Definition stops (p : ascii -> bool) (s : string) : bool :=
  match s with
  | EmptyString => true
  | String ch _ => negb (p ch)
  end.

(** A function of the package returns: it ends without a panic. *)
Definition returns {A : Type} (m : exec A) : Prop := exists a, m = Done a.

(** [post Q m]: when [m] returns, its result satisfies [Q]. *)
Definition post {A : Type} (Q : A -> Prop) (m : exec A) : Prop :=
  forall a, m = Done a -> Q a.

(** [m] ends with an error of the number parser (and no text left). *)
Definition fails (m : exec (float64 * string * option error)) : Prop :=
  exists x e, m = Done (x, "", Some e).

(** [ds] is one digit or more. *)
Definition digits1 (ds : string) : Prop :=
  ds <> "" /\ all_bytes isDigit ds = true.

(** The optional minus sign of a number. *)
Definition minus (neg : bool) : string := if neg then "-" else "".

(** The bytes a number token is made of. *)
Definition number_byte (ch : ascii) : bool :=
  isDigit ch || (ch =? "-")%char || (ch =? "+")%char || (ch =? ".")%char
  || (ch =? "e")%char || (ch =? "E")%char.

(** [strtod] never leaves text to its caller, and the input it accepts
    is made of number bytes only. *)
Definition strtod_result (input : string)
  (r : float64 * string * option error) : Prop :=
  let '(_, end_, err) := r in
  end_ = "" /\ (err = None -> all_bytes number_byte input = true).

(** The input begins with a minus sign; the input after that sign. *)
Definition has_minus (input : string) : bool :=
  match input with
  | String ch _ => (ch =? "-")%char
  | EmptyString => false
  end.

Definition unsigned (input : string) : string :=
  if has_minus input then drop 1 input else input.

(** The input begins as a number does: with a digit or a minus sign. *)
Definition number_start (input : string) : bool :=
  match input with
  | String ch _ => isDigit ch || (ch =? "-")%char
  | EmptyString => false
  end.

(** The entry parse of [text] is InvalidValue (the value is left Null; the
    number parser may have written its number field). *)
Definition invalid_value (v : LeptValue) (text : string) : Prop :=
  exists x,
    LeptParse (Some v) text
    = Done (LeptParseInvalidValue, set_n (set_typ v LeptNULL) x).

(** A parser that does not return OK leaves the tag of the value as it
    was, and one that returns OK has set a tag that is not an array's or
    an object's. *)
Definition tag_result (v : LeptValue) (r : Z * LeptContext * LeptValue)
  : Prop :=
  let '(ret, _, v') := r in
  (ret <> LeptParseOK -> typ v' = typ v)
  /\ (ret = LeptParseOK -> typ v' <> LeptARRAY /\ typ v' <> LeptOBJECT).

(** The [float64] [d] is a number of the format and its value is exactly
    the fraction [num/den]. *)
Definition represents (d : float64) (num den : Z) : Prop :=
  valid_binary prec emax d = true
  /\ match d with
     | S754_zero _ => num = 0
     | S754_finite sg m e =>
         (if sg then Z.neg m else Z.pos m) * 2 ^ Z.max e 0 * den
         = num * 2 ^ Z.max (- e) 0
     | _ => False
     end.

(** [t] without its leading sign, when it has one. *)
Definition strip_sign (t : string) : string :=
  match t with
  | String ch r => if (ch =? "-")%char || (ch =? "+")%char then r else t
  | EmptyString => t
  end.

(** The part of a string literal's body that [LeptParseString] accepts:
    [string_body p w] when [p] is a sequence of unescaped bytes (not below
    0x20, no quotation mark, no reverse solidus) and of two-byte escapes of
    the source's [switch], and [w] is what they add to the buffer. *)
Inductive string_body : string -> string -> Prop :=
| body_end : string_body "" ""
| body_byte ch p w :
    (ch =? quotation_mark)%char = false ->
    (ch =? reverse_solidus)%char = false ->
    (byte_val ch <? 32) = false ->
    string_body p w ->
    string_body (String ch p) (String ch w)
| body_escape e x p w :
    escape e = Some x ->
    string_body p w ->
    string_body (String reverse_solidus (String e p)) (x ++ w).

(** ** Vocabulary of the further properties *)

(** The results that the entry parse can have. *)
Definition parse_code (ret : Z) : Prop :=
  ret = LeptParseOK \/ ret = LeptParseExpectValue
  \/ ret = LeptParseInvalidValue \/ ret = LeptParseRootNotSingular
  \/ ret = LeptParseMissQuotationMark \/ ret = LeptParseInvalidStringEscape
  \/ ret = LeptParseInvalidStringChar.

(** The results of the string parser when it fails. *)
Definition string_error (ret : Z) : Prop :=
  ret = LeptParseMissQuotationMark \/ ret = LeptParseInvalidStringEscape
  \/ ret = LeptParseInvalidStringChar.

(** What [LeptParseValue] can return from the cursor [c]: ExpectValue at
    the end of the input and only there, OK or one of the three string
    errors behind a quotation mark, OK or InvalidValue elsewhere. *)
Definition code_result (c : LeptContext) (r : Z * LeptContext * LeptValue)
  : Prop :=
  let '(ret, _, _) := r in
  match json c with
  | EmptyString => ret = LeptParseExpectValue
  | String ch _ =>
      if (ch =? quotation_mark)%char
      then ret = LeptParseOK \/ string_error ret
      else ret = LeptParseOK \/ ret = LeptParseInvalidValue
  end.

(** The bytes that a parsed string can hold: no control byte other than
    the five that have an escape of their own. *)
Definition payload_byte (ch : ascii) : bool :=
  negb (byte_val ch <? 32)
  || (ch =? backspace)%char || (ch =? form_feed)%char
  || (ch =? line_feed)%char || (ch =? carriage_return)%char
  || (ch =? tab)%char.

(** The value of a run of digits, read in base ten. *)
Definition digits_value (ds : string) : Z :=
  match strconv.digits ds 0 with
  | Some m => m
  | None => 0
  end.

(** [ds] is one digit or more and its value is an [int]. *)
Definition fits (ds : string) : Prop :=
  digits1 ds /\ digits_value ds <= MaxInt.

(** The parts of a number text: the sign, the digits of the integer part,
    the digits of the fraction if there is one, and the letter, the sign
    and the digits of the exponent if there is one. *)
Record number_parts : Type := mkNumberParts {
  np_neg : bool;
  np_int : string;
  np_frac : option string;
  np_exp : option (ascii * string * string)
}.

Definition frac_text (f : option string) : string :=
  match f with
  | Some fd => String "." fd
  | None => ""
  end.

Definition exp_text (e : option (ascii * string * string)) : string :=
  match e with
  | Some (c, sg, ed) => String c (sg ++ ed)
  | None => ""
  end.

Definition number_render (np : number_parts) : string :=
  minus (np_neg np) ++ np_int np ++ frac_text (np_frac np)
  ++ exp_text (np_exp np).

(** The number texts that [strtod] accepts: the grammar of its comment,
    [number = [ "-" ] int [ frac ] [ exp ]], with every run of digits in
    the range of [int]. *)
Definition number_wf (np : number_parts) : Prop :=
  fits (np_int np)
  /\ (np_int np = "0" \/ stops (fun ch => (ch =? "0")%char) (np_int np) = true)
  /\ match np_frac np with
     | Some fd => fits fd
     | None => True
     end
  /\ match np_exp np with
     | Some (c, sg, ed) =>
         (c = "e" \/ c = "E")%char /\ (sg = "" \/ sg = "-" \/ sg = "+")
         /\ fits ed
     | None => True
     end.

Definition signed (neg : bool) (x : float64) : float64 :=
  if neg then f64_neg x else x.

(** What [strtod] computes from the parts: the integer part, plus the
    fraction digits over the [int] power of ten of their number, times
    the power of ten of the exponent; the single zero keeps no sign. *)
Definition frac_exp_value (ret : float64) (f : option string)
  (e : option (ascii * string * string)) : float64 :=
  let ret :=
    match f with
    | Some fd =>
        f64_add ret
          (f64_div (f64_of_int (digits_value fd))
             (f64_of_int (frac_loop (String.length fd) 0 1)))
    | None => ret
    end in
  match e with
  | Some (_, sg, ed) =>
      f64_mul ret
        (math.Pow10 (if (sg =? "-")%string then wrap (- digits_value ed)
                     else digits_value ed))
  | None => ret
  end.

Definition number_value (np : number_parts) : float64 :=
  let ret := f64_of_int (digits_value (np_int np)) in
  match np_frac np, np_exp np with
  | None, None =>
      if (np_int np =? "0")%string then f64_zero else signed (np_neg np) ret
  | f, e => signed (np_neg np) (frac_exp_value ret f e)
  end.

(** [t] begins with [lit]. *)
Fixpoint starts (lit t : string) : bool :=
  match lit, t with
  | EmptyString, _ => true
  | String a l, String b r => (b =? a)%char && starts l r
  | String _ _, EmptyString => false
  end.

(** A parser leaves a suffix of the input it was given. *)
Definition consumes (c : LeptContext) (r : Z * LeptContext * LeptValue)
  : Prop :=
  let '(_, c', _) := r in exists pre, json c = pre ++ json c'.

(** A parser that does not return OK leaves the tag and the string of
    the value as they were. *)
Definition failure_result (v : LeptValue) (r : Z * LeptContext * LeptValue)
  : Prop :=
  let '(ret, _, v') := r in
  ret <> LeptParseOK -> typ v' = typ v /\ s v' = s v.

(** ** Strings and slices *)

Lemma whitespace_run_le (t : string) :
  (whitespace_run t <= String.length t)%nat.
Proof.
  induction t as [|ch r IH]; simpl; [lia|].
  destruct (isSpace ch); simpl; lia.
Qed.

Lemma digit_run_le (t : string) : (digit_run t <= String.length t)%nat.
Proof.
  induction t as [|ch r IH]; simpl; [lia|].
  destruct (isDigit ch); simpl; lia.
Qed.

Lemma slice_from_le (t : string) (i : nat) :
  (i <= String.length t)%nat -> slice_from t i = Done (drop i t).
Proof.
  intros H. unfold slice_from.
  destruct (Nat.leb_spec i (String.length t)); [reflexivity | lia].
Qed.

Lemma slice_to_le (t : string) (i : nat) :
  (i <= String.length t)%nat -> slice_to t i = Done (take i t).
Proof.
  intros H. unfold slice_to.
  destruct (Nat.leb_spec i (String.length t)); [reflexivity | lia].
Qed.

Lemma take_drop (i : nat) (t : string) : take i t ++ drop i t = t.
Proof.
  revert t. induction i as [|i IH]; intros [|ch r]; simpl; try reflexivity.
  now rewrite IH.
Qed.

Lemma string_app_assoc (a b c : string) : (a ++ b) ++ c = a ++ (b ++ c).
Proof. induction a as [|ch a IH]; simpl; [reflexivity | now rewrite IH]. Qed.

Lemma string_app_empty_r (a : string) : a ++ "" = a.
Proof. induction a as [|ch a IH]; simpl; [reflexivity | now rewrite IH]. Qed.

Lemma all_bytes_app (p : ascii -> bool) (a b : string) :
  all_bytes p (a ++ b) = all_bytes p a && all_bytes p b.
Proof.
  induction a as [|ch a IH]; simpl; [reflexivity|].
  now rewrite IH, andb_assoc.
Qed.

Lemma all_bytes_weaken (p q : ascii -> bool) (t : string) :
  (forall ch, p ch = true -> q ch = true) ->
  all_bytes p t = true -> all_bytes q t = true.
Proof.
  intros Hpq. induction t as [|ch r IH]; simpl; [reflexivity|].
  intros H. apply andb_true_iff in H as [H1 H2].
  now rewrite (Hpq _ H1), IH.
Qed.

Lemma take_digit_run (t : string) :
  all_bytes isDigit (take (digit_run t) t) = true.
Proof.
  induction t as [|ch r IH]; simpl; [reflexivity|].
  destruct (isDigit ch) eqn:E; simpl; [now rewrite E | reflexivity].
Qed.

Lemma digit_run_stops (t : string) :
  stops isDigit t = true -> digit_run t = O.
Proof.
  destruct t as [|ch r]; simpl; [reflexivity|].
  now destruct (isDigit ch).
Qed.

Lemma digit_run_app (ds r : string) :
  all_bytes isDigit ds = true -> stops isDigit r = true ->
  digit_run (ds ++ r) = String.length ds.
Proof.
  intros Hds Hr. induction ds as [|ch ds IH]; simpl in *.
  - now apply digit_run_stops.
  - apply andb_true_iff in Hds as [H1 H2]. rewrite H1. now rewrite IH.
Qed.

Lemma take_app (a b : string) : take (String.length a) (a ++ b) = a.
Proof. induction a as [|ch a IH]; simpl; [now destruct b | now rewrite IH]. Qed.

Lemma drop_app (a b : string) : drop (String.length a) (a ++ b) = b.
Proof. induction a as [|ch a IH]; simpl; [reflexivity | exact IH]. Qed.

Lemma string_length_app (a b : string) :
  String.length (a ++ b) = (String.length a + String.length b)%nat.
Proof. induction a as [|ch a IH]; simpl; [reflexivity | now rewrite IH]. Qed.

Lemma whitespace_run_app (ws r : string) :
  all_bytes isSpace ws = true -> stops isSpace r = true ->
  whitespace_run (ws ++ r) = String.length ws.
Proof.
  intros Hws Hr. induction ws as [|ch ws IH]; simpl in *.
  - destruct r as [|c r]; simpl in *; [reflexivity|]. now destruct (isSpace c).
  - apply andb_true_iff in Hws as [H1 H2]. rewrite H1. now rewrite IH.
Qed.

Lemma LeptParseWhitespace_run (c : LeptContext) :
  LeptParseWhitespace c
  = Done {| json := drop (whitespace_run (json c)) (json c) |}.
Proof.
  unfold LeptParseWhitespace.
  now rewrite slice_from_le by apply whitespace_run_le.
Qed.

Lemma LeptParseWhitespace_app (ws r : string) :
  all_bytes isSpace ws = true -> stops isSpace r = true ->
  LeptParseWhitespace {| json := ws ++ r |} = Done {| json := r |}.
Proof.
  intros Hws Hr. rewrite LeptParseWhitespace_run. simpl.
  now rewrite whitespace_run_app, drop_app.
Qed.

Lemma take_whitespace_run (t : string) :
  all_bytes isSpace (take (whitespace_run t) t) = true.
Proof.
  induction t as [|ch r IH]; simpl; [reflexivity|].
  destruct (isSpace ch) eqn:E; simpl; [now rewrite E | reflexivity].
Qed.

Lemma drop_whitespace_run (t : string) :
  stops isSpace (drop (whitespace_run t) t) = true.
Proof.
  induction t as [|ch r IH]; simpl; [reflexivity|].
  destruct (isSpace ch) eqn:E; simpl; [exact IH | now rewrite E].
Qed.

(** Every input is some white space and a rest that does not begin with
    white space. *)
Lemma whitespace_split (t : string) :
  exists ws body,
    t = ws ++ body /\ all_bytes isSpace ws = true
    /\ stops isSpace body = true.
Proof.
  exists (take (whitespace_run t) t), (drop (whitespace_run t) t).
  split; [now rewrite take_drop|].
  split; [apply take_whitespace_run | apply drop_whitespace_run].
Qed.

(** ** The literals (claim C9) *)

(** C9.  For each of the literals null, true and false: on an input that
    begins with the literal the parser sets the corresponding type tag and
    consumes exactly the literal (the cursor is left on what follows it);
    when the bytes after the first one do not begin with the remaining
    spelling (ull, rue, alse), because a byte differs or because the input
    is too short, the parser returns InvalidValue and the value keeps the
    tag it had. *)
Theorem literal_parsers_spec (v : LeptValue) (rest : string) :
  (LeptParseNull {| json := "null" ++ rest |} v
     = Done (LeptParseOK, {| json := rest |}, set_typ v LeptNULL)
   /\ LeptParseTrue {| json := "true" ++ rest |} v
     = Done (LeptParseOK, {| json := rest |}, set_typ v LeptTRUE)
   /\ LeptParseFalse {| json := "false" ++ rest |} v
     = Done (LeptParseOK, {| json := rest |}, set_typ v LeptFALSE))
  /\ (String.prefix "ull" rest = false ->
      LeptParseNull {| json := String "n" rest |} v
      = Done (LeptParseInvalidValue, {| json := rest |}, v))
  /\ (String.prefix "rue" rest = false ->
      LeptParseTrue {| json := String "t" rest |} v
      = Done (LeptParseInvalidValue, {| json := rest |}, v))
  /\ (String.prefix "alse" rest = false ->
      LeptParseFalse {| json := String "f" rest |} v
      = Done (LeptParseInvalidValue, {| json := rest |}, v)).
Proof.
  split; [repeat split; reflexivity|].
  repeat split; intros H.
  - destruct rest as [|a [|b [|c r]]]; try reflexivity.
    cbn in H |- *.
    destruct (Ascii.eqb_spec a "u"); [subst|reflexivity].
    destruct (Ascii.eqb_spec b "l"); [subst|reflexivity].
    destruct (Ascii.eqb_spec c "l"); [subst|reflexivity].
    cbn in H. now destruct r.
  - destruct rest as [|a [|b [|c r]]]; try reflexivity.
    cbn in H |- *.
    destruct (Ascii.eqb_spec a "r"); [subst|reflexivity].
    destruct (Ascii.eqb_spec b "u"); [subst|reflexivity].
    destruct (Ascii.eqb_spec c "e"); [subst|reflexivity].
    cbn in H. now destruct r.
  - destruct rest as [|a [|b [|c [|d r]]]]; try reflexivity.
    cbn in H |- *.
    destruct (Ascii.eqb_spec a "a"); [subst|reflexivity].
    destruct (Ascii.eqb_spec b "l"); [subst|reflexivity].
    destruct (Ascii.eqb_spec c "s"); [subst|reflexivity].
    destruct (Ascii.eqb_spec d "e"); [subst|reflexivity].
    cbn in H. now destruct r.
Qed.

Lemma literal_parsers_witness :
  LeptParseNull {| json := String "n" "ul" |} NewLeptValue
  = Done (LeptParseInvalidValue, {| json := "ul" |}, NewLeptValue)
  /\ LeptParseTrue {| json := String "t" "rux" |} NewLeptValue
     = Done (LeptParseInvalidValue, {| json := "rux" |}, NewLeptValue)
  /\ LeptParseFalse {| json := String "f" "alsE" |} NewLeptValue
     = Done (LeptParseInvalidValue, {| json := "alsE" |}, NewLeptValue).
Proof.
  split; [|split].
  - apply (proj1 (proj2 (literal_parsers_spec NewLeptValue "ul"))).
    reflexivity.
  - apply (proj1 (proj2 (proj2 (literal_parsers_spec NewLeptValue "rux")))).
    reflexivity.
  - apply (proj2 (proj2 (proj2 (literal_parsers_spec NewLeptValue "alsE")))).
    reflexivity.
Defined.

(** ** No panic (claim C10) *)

Section Returns.

Context {A B : Type}.

Lemma returns_Done (a : A) : returns (Done a).
Proof. now exists a. Qed.

Lemma returns_bind (m : exec A) (k : A -> exec B) :
  returns m -> (forall a, m = Done a -> returns (k a)) -> returns (bind m k).
Proof.
  intros [a Ha] Hk. subst m. simpl. now apply Hk.
Qed.

End Returns.

Lemma returns_orM (a b : exec bool) :
  returns a -> (a = Done false -> returns b) -> returns (orM a b).
Proof.
  intros Ha Hb. apply returns_bind; [exact Ha|].
  intros [|] E; [apply returns_Done | now apply Hb].
Qed.

Lemma returns_andM (a b : exec bool) :
  returns a -> (a = Done true -> returns b) -> returns (andM a b).
Proof.
  intros Ha Hb. apply returns_bind; [exact Ha|].
  intros [|] E; [now apply Hb | apply returns_Done].
Qed.

Lemma get_lt (t : string) (i : nat) :
  (i < String.length t)%nat -> exists ch, String.get i t = Some ch.
Proof.
  revert i. induction t as [|c r IH]; intros i H; simpl in *; [lia|].
  destruct i as [|i]; [now exists c|]. apply IH. lia.
Qed.

Lemma returns_index (t : string) (i : nat) :
  (i < String.length t)%nat -> returns (index t i).
Proof.
  intros H. destruct (get_lt t i H) as [ch E].
  exists ch. unfold index. now rewrite E.
Qed.

Lemma returns_is_at (t : string) (i : nat) (ch : ascii) :
  (i < String.length t)%nat -> returns (is_at t i ch).
Proof.
  intros H. apply returns_bind; [now apply returns_index|].
  intros; apply returns_Done.
Qed.

Lemma returns_differs (c : LeptContext) (i : nat) (ch : ascii) :
  (i < String.length (json c))%nat -> returns (differs c i ch).
Proof.
  intros H. apply returns_bind; [now apply returns_index|].
  intros; apply returns_Done.
Qed.

Lemma returns_slice_from (t : string) (i : nat) :
  (i <= String.length t)%nat -> returns (slice_from t i).
Proof. intros H. rewrite slice_from_le by exact H. apply returns_Done. Qed.

Lemma returns_parseInteger (input : string) : returns (parseInteger input).
Proof.
  unfold parseInteger.
  rewrite slice_to_le by apply digit_run_le. simpl.
  destruct (strconv.Atoi _) as [x [e|]]; [apply returns_Done|].
  rewrite slice_from_le by apply digit_run_le. apply returns_Done.
Qed.

(** The goals below are [returns e] for a piece [e] of the program:
    [returns_step] follows the shape of [e], keeping the tests that were
    passed in the context for the bounds of the accesses. *)
Ltac bounds :=
  repeat match goal with
    | H : Done _ = Done _ |- _ => injection H as H
    | H : (_ <? _)%nat = true |- _ => apply Nat.ltb_lt in H
    | H : (_ <? _)%nat = false |- _ => apply Nat.ltb_ge in H
    | H : (_ <=? _)%nat = true |- _ => apply Nat.leb_le in H
    | H : (_ <=? _)%nat = false |- _ => apply Nat.leb_gt in H
    | H : (_ =? _)%nat = true |- _ => apply Nat.eqb_eq in H
    | H : (_ =? _)%nat = false |- _ => apply Nat.eqb_neq in H
    end;
  simpl in *; try lia.

Ltac returns_step :=
  match goal with
  | |- returns (Done _) => apply returns_Done
  | |- returns (bind _ _) => apply returns_bind; [|intros ? ?; cbv beta]
  | |- returns (orM _ _) => apply returns_orM; [|intros ?]
  | |- returns (andM _ _) => apply returns_andM; [|intros ?]
  | |- returns (index _ _) => apply returns_index; bounds
  | |- returns (is_at _ _ _) => apply returns_is_at; bounds
  | |- returns (differs _ _ _) => apply returns_differs; bounds
  | |- returns (slice_from _ _) => apply returns_slice_from; bounds
  | |- returns (parseInteger _) => apply returns_parseInteger
  | |- returns (return_signed ?b _) => destruct b; apply returns_Done
  | |- returns (if ?b then _ else _) => destruct b eqn:?
  | |- returns (match ?e with Some _ => _ | None => _ end) => destruct e eqn:?
  | |- returns (let '(_, _) := ?p in _) => destruct p as [? ?]
  end.

Lemma returns_parseFrac (input : string) :
  input <> "" -> returns (parseFrac input).
Proof.
  intros H. destruct input as [|ch r]; [congruence|].
  unfold parseFrac. repeat returns_step.
Qed.

Lemma returns_parseExp (input : string) :
  input <> "" -> returns (parseExp input).
Proof.
  intros H. destruct input as [|ch r]; [congruence|].
  unfold parseExp. repeat returns_step.
Qed.

Ltac nonempty :=
  let E := fresh "E" in
  intros E; rewrite E in *; simpl in *; try discriminate; bounds.

Ltac returns_call :=
  match goal with
  | |- returns (parseFrac _) => apply returns_parseFrac; nonempty
  | |- returns (parseExp _) => apply returns_parseExp; nonempty
  | _ => returns_step
  end.

Lemma returns_strtod (input : string) :
  input <> "" -> returns (strtod input).
Proof.
  intros H. destruct input as [|ch r]; [congruence|].
  unfold strtod, strtod_frac_exp. repeat returns_call.
Qed.

Lemma returns_LeptParseNumber (c : LeptContext) (v : LeptValue) :
  json c <> "" -> returns (LeptParseNumber c v).
Proof.
  intros H. unfold LeptParseNumber.
  apply returns_bind; [now apply returns_strtod|].
  intros [[x e] [err|]] _; apply returns_Done.
Qed.

Lemma expect_first (ch : ascii) (r : string) :
  expect {| json := String ch r |} ch = Done {| json := r |}.
Proof. unfold expect. simpl. now rewrite Ascii.eqb_refl. Qed.

Lemma returns_LeptParseNull (r : string) (v : LeptValue) :
  returns (LeptParseNull {| json := String "n" r |} v).
Proof.
  unfold LeptParseNull. rewrite expect_first. simpl bind.
  repeat returns_step.
Qed.

Lemma returns_LeptParseTrue (r : string) (v : LeptValue) :
  returns (LeptParseTrue {| json := String "t" r |} v).
Proof.
  unfold LeptParseTrue. rewrite expect_first. simpl bind.
  repeat returns_step.
Qed.

Lemma returns_LeptParseFalse (r : string) (v : LeptValue) :
  returns (LeptParseFalse {| json := String "f" r |} v).
Proof.
  unfold LeptParseFalse. rewrite expect_first. simpl bind.
  repeat returns_step.
Qed.

(** The loop of [LeptParseString] visits one or two bytes in a round:
    the statement is proved for a string and for the string with one
    more byte in front together. *)
Lemma returns_string_loop (c : LeptContext) (v : LeptValue) (rest : string) :
  (forall stack, returns (string_loop c v rest stack))
  /\ (forall ch stack, returns (string_loop c v (String ch rest) stack)).
Proof.
  induction rest as [|e rest [IH1 IH2]].
  - split; [intros; apply returns_Done|].
    intros ch stack. simpl.
    repeat returns_step.
  - split; [exact (IH2 e)|].
    intros ch stack.
    change (string_loop c v (String ch (String e rest)) stack)
      with (if (ch =? quotation_mark)%char
            then Done (LeptParseOK, {| json := String e rest |},
                       set_typ (set_s v stack) LeptSTRING)
            else if (ch =? reverse_solidus)%char
            then match escape e with
                 | Some w => string_loop c v rest (stack ++ w)
                 | None => Done (LeptParseInvalidStringEscape, c, v)
                 end
            else if byte_val ch <? 32
            then Done (LeptParseInvalidStringChar, c, v)
            else string_loop c v (String e rest) (stack ++ String ch "")).
    repeat returns_step; [apply IH1 | apply IH2].
Qed.

Lemma returns_LeptParseString (r : string) (v : LeptValue) :
  returns (LeptParseString {| json := String quotation_mark r |} v).
Proof.
  unfold LeptParseString. rewrite expect_first. simpl bind.
  apply returns_string_loop.
Qed.

Lemma returns_LeptParseValue (c : LeptContext) (v : LeptValue) :
  returns (LeptParseValue c v).
Proof.
  unfold LeptParseValue. destruct c as [[|c0 r]]; simpl.
  - apply returns_Done.
  - destruct (Ascii.eqb_spec c0 "n"); [subst; apply returns_LeptParseNull|].
    destruct (Ascii.eqb_spec c0 "t"); [subst; apply returns_LeptParseTrue|].
    destruct (Ascii.eqb_spec c0 "f"); [subst; apply returns_LeptParseFalse|].
    destruct (Ascii.eqb_spec c0 quotation_mark);
      [subst; apply returns_LeptParseString|].
    now apply returns_LeptParseNumber.
Qed.

(** C10.  For every input string and every non-nil output value the entry
    parse ends without a panic, and so does the dispatcher from every
    cursor.  The panics are in the program: expect panics unless the
    input begins with the expected byte, so the literal and string
    parsers panic on an empty input or on another first byte, and the
    first-byte accesses of strtod, parseFrac and parseExp panic on an
    empty input; they are reached only behind the dispatcher's and the
    preceding checks. *)
Theorem LeptParse_never_panics (v : LeptValue) (text : string) :
  returns (LeptParse (Some v) text)
  /\ returns (LeptParseValue {| json := text |} v)
  /\ LeptParse None text = Panicked NilValue
  /\ (forall ch,
        expect {| json := text |} ch
        = match text with
          | EmptyString => Panicked ErrReachEnd
          | String first rest =>
              if (first =? ch)%char then Done {| json := rest |}
              else Panicked ErrUnexpectChar
          end)
  /\ (LeptParseNull {| json := "" |} v = Panicked ErrReachEnd
      /\ LeptParseTrue {| json := "" |} v = Panicked ErrReachEnd
      /\ LeptParseFalse {| json := "" |} v = Panicked ErrReachEnd
      /\ LeptParseString {| json := "" |} v = Panicked ErrReachEnd
      /\ LeptParseNull {| json := "true" |} v = Panicked ErrUnexpectChar)
  /\ (strtod "" = Panicked IndexOutOfRange
      /\ parseFrac "" = Panicked IndexOutOfRange
      /\ parseExp "" = Panicked IndexOutOfRange).
Proof.
  split; [|split; [apply returns_LeptParseValue|]].
  - unfold LeptParse. rewrite LeptParseWhitespace_run.
    repeat returns_step.
    + apply returns_LeptParseValue.
    + rewrite LeptParseWhitespace_run. apply returns_Done.
  - repeat split.
    intros ch. destruct text as [|first rest]; [reflexivity|].
    unfold expect. simpl. now destruct (first =? ch)%char.
Qed.

(** ** The steps of the entry point *)

Lemma only_whitespace_left (t : string) :
  (String.length (drop (whitespace_run t) t) =? 0)%nat = all_bytes isSpace t.
Proof.
  induction t as [|ch r IH]; simpl; [reflexivity|].
  destruct (isSpace ch); simpl; [exact IH | reflexivity].
Qed.

Lemma LeptParse_steps (v : LeptValue) (ws body : string) :
  all_bytes isSpace ws = true -> stops isSpace body = true ->
  LeptParse (Some v) (ws ++ body)
  = ('(ret, c, v) <- LeptParseValue {| json := body |} (set_typ v LeptNULL) ;;
     if negb (ret =? LeptParseOK) then Done (ret, v)
     else if all_bytes isSpace (json c) then Done (LeptParseOK, v)
     else Done (LeptParseRootNotSingular, v)).
Proof.
  intros Hws Hbody. unfold LeptParse, NewLeptContext.
  rewrite LeptParseWhitespace_app by assumption. simpl bind at 1.
  destruct (LeptParseValue _ _) as [[[ret c] v1]|p]; [|reflexivity].
  simpl. destruct (ret =? LeptParseOK); [|reflexivity]. simpl.
  rewrite LeptParseWhitespace_run. simpl.
  rewrite only_whitespace_left. now destruct (all_bytes isSpace (json c)).
Qed.


(** ** Strings (claim C8) *)

Lemma string_loop_body (p w : string) :
  string_body p w ->
  forall c v rest stack,
    string_loop c v (p ++ rest) stack = string_loop c v rest (stack ++ w).
Proof.
  induction 1 as [|ch p w Hq Hb Hc _ IH|e x p w He _ IH]; intros c v rest stack.
  - now rewrite string_app_empty_r.
  - simpl. rewrite Hq, Hb, Hc, IH. now rewrite string_app_assoc.
  - simpl. rewrite He, IH. now rewrite string_app_assoc.
Qed.

Lemma LeptParseValue_string (body : string) (v : LeptValue) :
  LeptParseValue {| json := String quotation_mark body |} v
  = string_loop {| json := body |} v body "".
Proof. reflexivity. Qed.

Lemma LeptParse_string (v : LeptValue) (body : string) :
  LeptParse (Some v) (String quotation_mark body)
  = ('(ret, c, v) <- string_loop {| json := body |} (set_typ v LeptNULL) body "" ;;
     if negb (ret =? LeptParseOK) then Done (ret, v)
     else if all_bytes isSpace (json c) then Done (LeptParseOK, v)
     else Done (LeptParseRootNotSingular, v)).
Proof.
  rewrite <- LeptParseValue_string.
  exact (LeptParse_steps v "" (String quotation_mark body) eq_refl eq_refl).
Qed.

(** A string literal that is closed is parsed to the bytes its body stands
    for. *)
Lemma LeptParse_string_closed (v : LeptValue) (p w : string) :
  string_body p w ->
  LeptParse (Some v) (String quotation_mark (p ++ String quotation_mark ""))
  = Done (LeptParseOK, set_typ (set_s (set_typ v LeptNULL) w) LeptSTRING).
Proof.
  intros H. rewrite LeptParse_string, (string_loop_body p w H). reflexivity.
Qed.

Lemma control_byte (ch : ascii) :
  byte_val ch < 32 ->
  (ch =? quotation_mark)%char = false /\ (ch =? reverse_solidus)%char = false.
Proof.
  intros H. split; apply Ascii.eqb_neq; intros ->; cbv in H; discriminate.
Qed.

(** C8.  After a body [p] that the string parser accepts, the failures
    are of three kinds: MissQuotationMark when the input ends before a
    closing quotation mark; InvalidStringEscape when a reverse solidus is
    the last byte or is followed by a byte for which the parser has no
    escape (every byte other than the nine escape characters of the
    grammar is such a byte); InvalidStringChar at a raw byte below 0x20,
    a tab for one.  The three results are different. *)
Theorem string_failures (v : LeptValue) (p w : string) :
  string_body p w ->
  let q := quotation_mark in
  let v0 := set_typ v LeptNULL in
  LeptParse (Some v) (String q p) = Done (LeptParseMissQuotationMark, v0)
  /\ LeptParse (Some v) (String q (p ++ String reverse_solidus ""))
     = Done (LeptParseInvalidStringEscape, v0)
  /\ (forall e rest,
        escape e = None ->
        LeptParse (Some v) (String q (p ++ String reverse_solidus (String e rest)))
        = Done (LeptParseInvalidStringEscape, v0))
  /\ (forall e,
        ~ In e [q; reverse_solidus; "/"; "b"; "f"; "n"; "r"; "t"; "u"]%char ->
        escape e = None)
  /\ (forall ch rest,
        byte_val ch < 32 ->
        LeptParse (Some v) (String q (p ++ String ch rest))
        = Done (LeptParseInvalidStringChar, v0))
  /\ (LeptParse (Some v) (String q "abc") = Done (LeptParseMissQuotationMark, v0)
      /\ LeptParse (Some v) (String q ("\x" ++ String q ""))
         = Done (LeptParseInvalidStringEscape, v0)
      /\ LeptParse (Some v) (String q (String tab (String q "")))
         = Done (LeptParseInvalidStringChar, v0))
  /\ (LeptParseMissQuotationMark <> LeptParseInvalidStringEscape
      /\ LeptParseMissQuotationMark <> LeptParseInvalidStringChar
      /\ LeptParseInvalidStringEscape <> LeptParseInvalidStringChar).
Proof.
  intros H q v0. repeat split; try discriminate.
  - rewrite <- (string_app_empty_r p) at 1. unfold q.
    now rewrite LeptParse_string, (string_loop_body p w H).
  - unfold q. now rewrite LeptParse_string, (string_loop_body p w H).
  - intros e rest He. unfold q.
    rewrite LeptParse_string, (string_loop_body p w H). simpl. now rewrite He.
  - intros e He. unfold escape.
    repeat match goal with
           | |- context [(e =? ?c)%char] =>
               destruct (Ascii.eqb_spec e c);
               [exfalso; apply He; subst e; simpl; tauto|]
           end.
    reflexivity.
  - intros ch rest Hch. unfold q.
    rewrite LeptParse_string, (string_loop_body p w H). simpl.
    destruct (control_byte ch Hch) as [-> ->].
    apply Z.ltb_lt in Hch. now rewrite Hch.
Qed.

Lemma string_failures_witness :
  LeptParse (Some NewLeptValue)
    (String quotation_mark ("a\n" ++ String form_feed "z"))
  = Done (LeptParseInvalidStringChar, set_typ NewLeptValue LeptNULL)
  /\ LeptParse (Some NewLeptValue) (String quotation_mark ("a\n" ++ "\A"))
     = Done (LeptParseInvalidStringEscape, set_typ NewLeptValue LeptNULL).
Proof.
  assert (B : string_body "a\n" (String "a" (String line_feed ""))).
  { apply body_byte; try reflexivity.
    apply (body_escape "n" (String line_feed "") "" ""); [reflexivity|].
    apply body_end. }
  pose proof (string_failures NewLeptValue _ _ B) as S. cbv zeta in S.
  split.
  - apply (proj1 (proj2 (proj2 (proj2 (proj2 S))))). reflexivity.
  - apply (proj1 (proj2 (proj2 S))). reflexivity.
Defined.

(** ** What the number parser consumes (claim C4) *)

Lemma post_Done {A : Type} (Q : A -> Prop) (a : A) : Q a -> post Q (Done a).
Proof. intros H b E. injection E as <-. exact H. Qed.

Lemma post_bind {A B : Type} (Q : B -> Prop) (m : exec A) (k : A -> exec B) :
  (forall a, m = Done a -> post Q (k a)) -> post Q (bind m k).
Proof.
  intros H b E. destruct m as [a|p]; simpl in E; [|discriminate].
  exact (H a eq_refl b E).
Qed.

Ltac post_step :=
  match goal with
  | |- post _ (Done _) => apply post_Done
  | |- post _ (bind _ _) => apply post_bind; intros ? ?; cbv beta
  | |- post _ (orM _ _) => unfold orM at 1
  | |- post _ (andM _ _) => unfold andM at 1
  | |- post _ (return_signed ?b _) => unfold return_signed
  | |- post _ (if ?b then _ else _) => destruct b eqn:?
  | |- post _ (match ?e with Some _ => _ | None => _ end) => destruct e eqn:?
  | |- post _ (let '(_, _) := ?p in _) => destruct p as [? ?]
  end.

Lemma length_zero (t : string) : (String.length t =? 0)%nat = true -> t = "".
Proof. now destruct t. Qed.

Lemma digit_is_number_byte (ch : ascii) :
  isDigit ch = true -> number_byte ch = true.
Proof. intros H. unfold number_byte. now rewrite H. Qed.

Lemma parseInteger_inv (input rest : string) (x : Z) :
  parseInteger input = Done (rest, x, None) ->
  exists ds, input = ds ++ rest /\ digits1 ds.
Proof.
  unfold parseInteger.
  rewrite slice_to_le by apply digit_run_le. simpl.
  destruct (strconv.Atoi _) as [i [e|]] eqn:A; [discriminate|].
  rewrite slice_from_le by apply digit_run_le. simpl.
  intros E. injection E as <- _.
  exists (take (digit_run input) input). split; [|split].
  - now rewrite take_drop.
  - intros Z. rewrite Z in A. discriminate.
  - apply take_digit_run.
Qed.

Lemma parseFrac_inv (input rest : string) (x : Z) :
  parseFrac input = Done (rest, x, None) ->
  exists ds, input = String "." (ds ++ rest) /\ digits1 ds.
Proof.
  destruct input as [|ch r]; [discriminate|].
  unfold parseFrac. simpl.
  destruct (Ascii.eqb_spec ch "."); [subst ch|discriminate].
  intros E. apply parseInteger_inv in E as (ds & -> & D). now exists ds.
Qed.

Lemma parseExp_inv (input rest : string) (x : Z) :
  parseExp input = Done (rest, x, None) ->
  exists e sg ds,
    input = String e (sg ++ ds ++ rest)
    /\ (e = "e" \/ e = "E")%char /\ (sg = "" \/ sg = "-" \/ sg = "+")
    /\ digits1 ds.
Proof.
  destruct input as [|e [|s1 r]]; [discriminate| |].
  - unfold parseExp, orM, is_at. simpl.
    destruct (e =? "e")%char; simpl; [discriminate|].
    destruct (e =? "E")%char; simpl; discriminate.
  - assert (He : (e =? "e")%char || (e =? "E")%char = true ->
                 (e = "e" \/ e = "E")%char).
    { destruct (Ascii.eqb_spec e "e"); [now left|].
      destruct (Ascii.eqb_spec e "E"); [now right | discriminate]. }
    assert (E : orM (is_at (String e (String s1 r)) 0 "e")
                  (is_at (String e (String s1 r)) 0 "E")
                = Done ((e =? "e")%char || (e =? "E")%char)).
    { unfold orM, is_at. simpl. now destruct (e =? "e")%char. }
    unfold parseExp. rewrite E. simpl bind at 1.
    destruct ((e =? "e")%char || (e =? "E")%char); [|discriminate].
    specialize (He eq_refl). unfold orM, is_at. simpl.
    destruct (Ascii.eqb_spec s1 "-") as [->|N1]; simpl.
    + destruct (parseInteger r) as [[[r1 x1] [err|]]|] eqn:P; simpl;
        try discriminate.
      apply parseInteger_inv in P as (ds & P & D).
      intros R; injection R as <- _.
      exists e, "-", ds. simpl. rewrite P. auto 10.
    + destruct (Ascii.eqb_spec s1 "+") as [->|N2]; simpl.
      * destruct (parseInteger r) as [[[r1 x1] [err|]]|] eqn:P; simpl;
          try discriminate.
        apply parseInteger_inv in P as (ds & P & D).
        intros R; injection R as <- _.
        exists e, "+", ds. simpl. rewrite P. auto 10.
      * destruct (parseInteger (String s1 r)) as [[[r1 x1] [err|]]|] eqn:P;
          simpl; try discriminate.
        apply parseInteger_inv in P as (ds & P & D).
        intros R; injection R as <- _.
        exists e, "", ds. simpl. rewrite <- P. auto 10.
Qed.

Lemma number_bytes_digits (ds r : string) :
  digits1 ds ->
  all_bytes number_byte (ds ++ r) = all_bytes number_byte r.
Proof.
  intros [_ D]. rewrite all_bytes_app.
  now rewrite (all_bytes_weaken _ _ _ digit_is_number_byte D).
Qed.

Lemma number_bytes_parseFrac (input rest : string) (x : Z) :
  parseFrac input = Done (rest, x, None) ->
  all_bytes number_byte input = all_bytes number_byte rest.
Proof.
  intros E. apply parseFrac_inv in E as (ds & -> & D).
  simpl. now apply number_bytes_digits.
Qed.

Lemma number_bytes_parseExp (input rest : string) (x : Z) :
  parseExp input = Done (rest, x, None) ->
  all_bytes number_byte input = all_bytes number_byte rest.
Proof.
  intros E. apply parseExp_inv in E as (e & sg & ds & -> & He & Hs & D).
  assert (N : number_byte e = true) by (destruct He; now subst).
  simpl. rewrite N. simpl. rewrite all_bytes_app, number_bytes_digits by exact D.
  destruct Hs as [->| [->| ->]]; reflexivity.
Qed.

Ltac number_bytes :=
  split; [reflexivity|]; intros; try discriminate;
  repeat match goal with
    | H : parseFrac _ = Done (_, _, None) |- _ =>
        apply number_bytes_parseFrac in H; rewrite H
    | H : parseExp _ = Done (_, _, None) |- _ =>
        apply number_bytes_parseExp in H; rewrite H
    | H : (String.length _ =? 0)%nat = true |- _ =>
        apply length_zero in H; rewrite H
    | H : negb (String.length _ =? 0)%nat = false |- _ =>
        apply negb_false_iff, length_zero in H; rewrite H
    end;
  try reflexivity.

Lemma strtod_frac_exp_result (neg : bool) (integer : Z) (input : string) :
  post (strtod_result input) (strtod_frac_exp neg integer input).
Proof.
  unfold strtod_frac_exp, strtod_result.
  repeat post_step; number_bytes.
Qed.

Lemma is_at_first (t : string) (ch : ascii) :
  is_at t 0 ch = Done true -> exists r, t = String ch r.
Proof.
  destruct t as [|c r]; [discriminate|].
  unfold is_at. simpl. intros E. injection E as E.
  apply Ascii.eqb_eq in E. subst c. now exists r.
Qed.

Lemma number_bytes_parseInteger (input rest : string) (x : Z) :
  parseInteger input = Done (rest, x, None) ->
  all_bytes number_byte input = all_bytes number_byte rest.
Proof.
  intros E. apply parseInteger_inv in E as (ds & -> & D).
  now apply number_bytes_digits.
Qed.

Lemma andM_true (a b : exec bool) :
  andM a b = Done true -> a = Done true /\ b = Done true.
Proof.
  unfold andM. destruct a as [[|]|p]; simpl; intros E;
    try discriminate; now split.
Qed.

Lemma single_zero (body : string) :
  andM (is_at body 0 "0") (Done (String.length body =? 1)%nat) = Done true ->
  body = "0".
Proof.
  intros E. apply andM_true in E as [E1 E2].
  apply is_at_first in E1 as [t ->]. injection E2 as E2.
  destruct t; [reflexivity | discriminate].
Qed.

Lemma strtod_returns_result (input : string) :
  post (strtod_result input) (strtod input).
Proof.
  destruct input as [|first r]; [intros a E; discriminate|].
  unfold strtod. simpl index. apply post_bind. intros a0 E0.
  injection E0 as <-.
  apply post_bind. intros body Hbody.
  assert (B : all_bytes number_byte (String first r)
              = all_bytes number_byte body).
  { destruct (Ascii.eqb_spec first "-") as [->|N].
    - simpl in Hbody. injection Hbody as <-. reflexivity.
    - injection Hbody as <-. reflexivity. }
  unfold strtod_result. rewrite B. clear B Hbody.
  repeat post_step.
  all: try (split; [reflexivity | discriminate]).
  all: try match goal with
         | H : parseInteger _ = Done _ |- _ =>
             apply number_bytes_parseInteger in H; rewrite H
         end.
  - (* the single zero *)
    split; [reflexivity|]. intros _.
    match goal with
    | H : andM _ _ = Done true |- _ => now rewrite (single_zero _ H)
    end.
  - (* an integer, the sign before it *)
    split; [reflexivity|]. intros _.
    destruct s0; [reflexivity | discriminate].
  - (* an integer *)
    split; [reflexivity|]. intros _.
    destruct s0; [reflexivity | discriminate].
  - (* an integer and more *)
    apply strtod_frac_exp_result.
Qed.

(** C4 (code bug).  The number parser does not leave the text after a
    number to its caller: it decides on the whole of the input it is
    given.  On a cursor that is not at the end of the input it either
    returns OK, and then it has consumed everything (the cursor is left
    empty) and every byte of the input was a byte of a number (a digit, a
    sign, a point, e or E); or it returns InvalidValue and leaves the
    cursor where it was.  So a number followed by any other byte, a white
    space for one, is InvalidValue in the number parser itself: the rest
    that [strtod] returns, and that LeptParseNumber stores in the cursor,
    is empty on every path. *)
Theorem LeptParseNumber_all_or_nothing (c : LeptContext) (v : LeptValue) :
  json c <> "" ->
  (exists x,
      (LeptParseNumber c v
       = Done (LeptParseOK, {| json := "" |}, set_typ (set_n v x) LeptNUMBER)
       /\ all_bytes number_byte (json c) = true)
      \/ LeptParseNumber c v = Done (LeptParseInvalidValue, c, set_n v x))
  /\ (all_bytes number_byte (json c) = false ->
      exists x,
        LeptParseNumber c v = Done (LeptParseInvalidValue, c, set_n v x)).
Proof.
  intros H.
  destruct (returns_strtod (json c) H) as [[[x e] err] E].
  pose proof (strtod_returns_result (json c) _ E) as [-> N].
  assert (R : LeptParseNumber c v
              = match err with
                | Some _ => Done (LeptParseInvalidValue, c, set_n v x)
                | None => Done (LeptParseOK, {| json := "" |},
                                set_typ (set_n v x) LeptNUMBER)
                end).
  { unfold LeptParseNumber. rewrite E. reflexivity. }
  split.
  - exists x. destruct err as [e|]; [now right|]. left. split; [exact R|].
    now apply N.
  - intros F. exists x. destruct err as [e|]; [exact R|].
    rewrite N in F by reflexivity. discriminate.
Qed.

Lemma LeptParseNumber_all_or_nothing_witness :
  exists x,
    LeptParseNumber {| json := "12 " |} NewLeptValue
    = Done (LeptParseInvalidValue, {| json := "12 " |}, set_n NewLeptValue x).
Proof.
  apply (proj2 (LeptParseNumber_all_or_nothing {| json := "12 " |} NewLeptValue
                  ltac:(discriminate))).
  reflexivity.
Defined.

(** C4 at the input 1 followed by a space: the one-digit number 1 is
    accepted, but with a space after it the number parser itself answers
    InvalidValue and does not move the cursor; the space is not left for
    the caller, and the entry parse of a number with white space after it
    is InvalidValue. *)
Lemma number_parser_rejects_trailing_text :
  LeptParseNumber {| json := "1" |} NewLeptValue
  = Done (LeptParseOK, {| json := "" |},
          set_typ (set_n NewLeptValue (f64_of_int 1)) LeptNUMBER)
  /\ LeptParseNumber {| json := "1 " |} NewLeptValue
     = Done (LeptParseInvalidValue, {| json := "1 " |},
             set_n NewLeptValue (f64_of_int 1))
  /\ ~ (exists v, LeptParseNumber {| json := "1 " |} NewLeptValue
                  = Done (LeptParseOK, {| json := " " |}, v))
  /\ LeptParse (Some NewLeptValue) "1 "
     = Done (LeptParseInvalidValue,
             set_n (set_typ NewLeptValue LeptNULL) (f64_of_int 1)).
Proof.
  repeat split. intros [v E]. discriminate.
Qed.

(** The ways in which [strtod] returns: with an error, on the single
    zero, after the integer part, or from its second half. *)
Lemma strtod_cases (input : string) (r : float64 * string * option error) :
  strtod input = Done r ->
  let neg := has_minus input in
  let body := unsigned input in
  (exists x e, r = (x, "", Some e))
  \/ (body = "0" /\ r = (f64_zero, "", None))
  \/ (exists z,
        parseInteger body = Done ("", z, None)
        /\ return_signed neg (f64_of_int z) = Done r)
  \/ (exists z rest,
        parseInteger body = Done (rest, z, None) /\ rest <> ""
        /\ strtod_frac_exp neg z rest = Done r).
Proof.
  destruct input as [|first t]; [discriminate|].
  unfold unsigned, has_minus. revert r.
  change (post (fun r =>
    let neg := (first =? "-")%char in
    let body := if (first =? "-")%char then drop 1 (String first t)
                else String first t in
    (exists x e, r = (x, "", Some e))
    \/ (body = "0" /\ r = (f64_zero, "", None))
    \/ (exists z, parseInteger body = Done ("", z, None)
                  /\ return_signed neg (f64_of_int z) = Done r)
    \/ (exists z rest, parseInteger body = Done (rest, z, None) /\ rest <> ""
                       /\ strtod_frac_exp neg z rest = Done r))
    (strtod (String first t))).
  unfold strtod. simpl index. apply post_bind. intros a0 E0.
  injection E0 as <-.
  apply post_bind. intros body Hbody.
  assert (B : (if (first =? "-")%char then drop 1 (String first t)
               else String first t) = body).
  { destruct (first =? "-")%char; simpl in Hbody; now injection Hbody. }
  cbv zeta. rewrite B. clear B Hbody.
  generalize (first =? "-")%char as neg. intros neg.
  repeat match goal with
         | |- post _ (strtod_frac_exp _ _ _) => fail 1
         | |- post _ (return_signed _ _) => fail 1
         | _ => post_step
         end.
  all: try (left; eexists; eexists; reflexivity).
  - right; left. split; [|reflexivity].
    match goal with
    | H : andM _ _ = Done true |- _ => exact (single_zero _ H)
    end.
  - intros r E. right; right; left.
    match goal with
    | H : parseInteger _ = Done (?s, ?z, None) |- _ =>
        exists z; destruct s; [now split | discriminate]
    end.
  - intros r E. right; right; right.
    match goal with
    | H : parseInteger _ = Done (?s, ?z, None) |- _ =>
        exists z, s; repeat split; [exact H | | exact E]
    end.
    intros ->. discriminate.
Qed.

(** ** Malformed numbers (claim C7) *)

Lemma digit_differs (d ch : ascii) :
  isDigit d = true -> isDigit ch = false -> (d =? ch)%char = false.
Proof.
  intros Hd Hc. apply Ascii.eqb_neq. intros ->. congruence.
Qed.

Lemma parseInteger_stops (t : string) :
  stops isDigit t = true -> parseInteger t = Done ("", 0, Some ErrSyntax).
Proof.
  intros H. unfold parseInteger. rewrite (digit_run_stops t H).
  now destruct t.
Qed.

Lemma parseInteger_app (ds t : string) :
  all_bytes isDigit ds = true -> stops isDigit t = true ->
  parseInteger (ds ++ t)
  = match strconv.Atoi ds with
    | (_, Some e) => Done ("", 0, Some e)
    | (i, None) => Done (t, i, None)
    end.
Proof.
  intros Hd Ht. unfold parseInteger. rewrite (digit_run_app ds t Hd Ht).
  rewrite slice_to_le, take_app by (rewrite string_length_app; lia).
  simpl. destruct (strconv.Atoi ds) as [i [e|]]; [reflexivity|].
  rewrite slice_from_le, drop_app by (rewrite string_length_app; lia).
  reflexivity.
Qed.

Lemma parseExp_malformed (e : ascii) (t : string) :
  stops isDigit (strip_sign t) = true ->
  exists err, parseExp (String e t) = Done ("", 0, Some err).
Proof.
  intros H. unfold parseExp, orM, is_at. simpl.
  destruct ((e =? "e")%char) eqn:E1; simpl.
  2: destruct ((e =? "E")%char) eqn:E2; simpl; [|now eexists].
  all: destruct t as [|s1 r]; [now eexists|]; simpl in *.
  all: destruct ((s1 =? "-")%char) eqn:S1; simpl in *.
  all: try (destruct ((s1 =? "+")%char) eqn:S2; simpl in * ).
  all: rewrite parseInteger_stops by exact H; now eexists.
Qed.

Lemma frac_without_digits (neg : bool) (z : Z) (rest : string) :
  stops isDigit rest = true ->
  fails (strtod_frac_exp neg z (String "." rest)).
Proof.
  intros H. unfold strtod_frac_exp, is_at, parseFrac. simpl.
  rewrite parseInteger_stops by exact H. simpl. now eexists; eexists.
Qed.

Lemma exp_malformed (neg : bool) (z : Z) (e : ascii) (t : string) :
  (e = "e" \/ e = "E")%char -> stops isDigit (strip_sign t) = true ->
  fails (strtod_frac_exp neg z (String e t)).
Proof.
  intros He H. destruct (parseExp_malformed e t H) as [err P].
  unfold strtod_frac_exp. rewrite P.
  destruct He as [-> | ->]; simpl; now eexists; eexists.
Qed.

Lemma frac_exp_malformed (neg : bool) (z : Z) (fd : string) (e : ascii)
  (t : string) :
  digits1 fd -> (e = "e" \/ e = "E")%char ->
  stops isDigit (strip_sign t) = true ->
  fails (strtod_frac_exp neg z (String "." (fd ++ String e t))).
Proof.
  intros [Hne Hd] He H. destruct (parseExp_malformed e t H) as [err P].
  assert (St : stops isDigit (String e t) = true)
    by (destruct He as [-> | ->]; reflexivity).
  unfold strtod_frac_exp, is_at, parseFrac. simpl.
  rewrite parseInteger_app by assumption.
  destruct (strconv.Atoi fd) as [i [a|]]; simpl; [now eexists; eexists|].
  unfold orM, is_at. rewrite P.
  destruct He as [-> | ->]; simpl; now eexists; eexists.
Qed.

Lemma digits1_first (int : string) :
  digits1 int ->
  exists d0 ds, int = String d0 ds /\ isDigit d0 = true
                /\ all_bytes isDigit ds = true.
Proof.
  intros [Hne Hd]. destruct int as [|d0 ds]; [congruence|].
  simpl in Hd. apply andb_true_iff in Hd as [H1 H2]. now exists d0, ds.
Qed.

Lemma strtod_int_tail (neg : bool) (int tail : string) :
  digits1 int -> stops isDigit tail = true -> tail <> "" ->
  (forall z, fails (strtod_frac_exp neg z tail)) ->
  fails (strtod (minus neg ++ int ++ tail)).
Proof.
  intros Hint Ht Hne Hfail.
  destruct (digits1_first int Hint) as (d0 & ds & -> & Hd0 & Hds).
  assert (M : (d0 =? "-")%char = false) by now apply digit_differs.
  set (input := minus neg ++ String d0 ds ++ tail).
  assert (Hneg : has_minus input = neg)
    by (destruct neg; simpl; [reflexivity | exact M]).
  assert (Hbody : unsigned input = String d0 ds ++ tail).
  { unfold unsigned. rewrite Hneg. now destruct neg. }
  destruct (returns_strtod input) as [r E].
  { now destruct neg. }
  pose proof (strtod_cases input r E) as C. cbv zeta in C.
  rewrite Hneg, Hbody in C.
  rewrite parseInteger_app in C by (destruct Hint; assumption).
  destruct C as [(x & e & ->) | [[B _] | [(z & P & _) | (z & rest & P & _ & F)]]].
  - now exists x, e.
  - exfalso. injection B as _ B. destruct ds; [now destruct tail | discriminate].
  - exfalso. destruct (strconv.Atoi _) as [i [e|]]; [discriminate|].
    injection P as P _. congruence.
  - destruct (strconv.Atoi _) as [i [e|]]; [discriminate|].
    injection P as <- <-. destruct (Hfail i) as (x & e & F').
    rewrite F' in F. injection F as <-. rewrite E. now exists x, e.
Qed.

Lemma leading_zero (neg : bool) (d : ascii) (rest : string) :
  isDigit d = true ->
  fails (strtod (minus neg ++ String "0" (String d rest))).
Proof.
  intros Hd.
  assert (D1 : (d =? ".")%char = false) by now apply digit_differs.
  assert (D2 : (d =? "e")%char = false) by now apply digit_differs.
  assert (D3 : (d =? "E")%char = false) by now apply digit_differs.
  destruct neg; unfold strtod, andM, orM, is_at; simpl;
    rewrite D1, D2, D3; simpl; now eexists; eexists.
Qed.

Lemma bare_minus (rest : string) :
  stops isDigit rest = true -> fails (strtod (String "-" rest)).
Proof.
  intros H. destruct rest as [|ch r]; [now eexists; eexists|].
  simpl in H. apply negb_true_iff in H.
  assert (Z0 : (ch =? "0")%char = false).
  { apply Ascii.eqb_neq. intros ->. discriminate. }
  unfold strtod, andM, orM, is_at. simpl. rewrite Z0. simpl. rewrite H. simpl.
  now eexists; eexists.
Qed.

Lemma LeptParse_number_fails (v : LeptValue) (text : string) :
  number_start text = true -> fails (strtod text) -> invalid_value v text.
Proof.
  intros Hs (x & e & F). exists x.
  destruct text as [|c0 r]; [discriminate|]. simpl in Hs.
  assert (N : (c0 =? "n")%char = false /\ (c0 =? "t")%char = false
              /\ (c0 =? "f")%char = false
              /\ (c0 =? quotation_mark)%char = false /\ isSpace c0 = false).
  { repeat split; try apply Ascii.eqb_neq; try intros ->; try discriminate.
    unfold isSpace.
    repeat match goal with
           | |- context [(c0 =? ?k)%char] =>
               destruct (Ascii.eqb_spec c0 k); [subst c0; discriminate|]
           end.
    reflexivity. }
  destruct N as (N1 & N2 & N3 & N4 & N5).
  change (String c0 r) with ("" ++ String c0 r).
  rewrite (LeptParse_steps v "" (String c0 r) eq_refl)
    by (simpl; now rewrite N5).
  unfold LeptParseValue. simpl. rewrite N1, N2, N3, N4.
  unfold LeptParseNumber. simpl json. rewrite F. reflexivity.
Qed.

Lemma number_start_signed (neg : bool) (int t : string) :
  digits1 int -> number_start (minus neg ++ int ++ t) = true.
Proof.
  intros H. destruct neg; [reflexivity|].
  destruct (digits1_first int H) as (d0 & ds & -> & Hd0 & _).
  simpl. now rewrite Hd0.
Qed.

(** C7.  Malformed number literals are InvalidValue: 0123, a lone minus
    sign, 1. and 1e are; and so is, with or without a minus sign in
    front, every input that begins with a zero and a digit after it, with
    a minus sign and no digit after it, with an integer part and a point
    that no digit follows, and with an integer part (and a fraction, if
    any) and an e or E that no digit follows, be it directly or after a
    sign. *)
Theorem malformed_numbers (v : LeptValue) :
  (invalid_value v "0123" /\ invalid_value v "-" /\ invalid_value v "1."
   /\ invalid_value v "1e")
  /\ (forall neg d rest,
        isDigit d = true ->
        invalid_value v (minus neg ++ String "0" (String d rest)))
  /\ (forall rest,
        stops isDigit rest = true -> invalid_value v (String "-" rest))
  /\ (forall neg int rest,
        digits1 int -> stops isDigit rest = true ->
        invalid_value v (minus neg ++ int ++ String "." rest))
  /\ (forall neg int e t,
        digits1 int -> (e = "e" \/ e = "E")%char ->
        stops isDigit (strip_sign t) = true ->
        invalid_value v (minus neg ++ int ++ String e t))
  /\ (forall neg int fd e t,
        digits1 int -> digits1 fd -> (e = "e" \/ e = "E")%char ->
        stops isDigit (strip_sign t) = true ->
        invalid_value v (minus neg ++ int ++ String "." (fd ++ String e t))).
Proof.
  split; [|split; [|split; [|split; [|split]]]].
  - repeat split; eexists; reflexivity.
  - intros neg d rest Hd. apply LeptParse_number_fails.
    + now destruct neg.
    + now apply leading_zero.
  - intros rest H. apply LeptParse_number_fails; [reflexivity|].
    now apply bare_minus.
  - intros neg int rest Hint H. apply LeptParse_number_fails.
    + now apply number_start_signed.
    + apply strtod_int_tail; try easy.
      intros z. now apply frac_without_digits.
  - intros neg int e t Hint He H. apply LeptParse_number_fails.
    + now apply number_start_signed.
    + apply strtod_int_tail; try easy.
      * destruct He as [-> | ->]; reflexivity.
      * intros z. now apply exp_malformed.
  - intros neg int fd e t Hint Hfd He H. apply LeptParse_number_fails.
    + now apply number_start_signed.
    + apply strtod_int_tail; try easy.
      intros z. now apply frac_exp_malformed.
Qed.

Lemma malformed_numbers_witness :
  invalid_value NewLeptValue (minus true ++ String "0" (String "7" "5"))
  /\ invalid_value NewLeptValue (String "-" "x")
  /\ invalid_value NewLeptValue (minus false ++ "12" ++ String "." " ")
  /\ invalid_value NewLeptValue (minus true ++ "12" ++ String "E" "+")
  /\ invalid_value NewLeptValue
       (minus false ++ "3" ++ String "." ("14" ++ String "e" "-x")).
Proof.
  pose proof (malformed_numbers NewLeptValue) as (_ & A & B & C & D & E).
  assert (D12 : digits1 "12") by (split; [discriminate | reflexivity]).
  assert (D3 : digits1 "3") by (split; [discriminate | reflexivity]).
  assert (D14 : digits1 "14") by (split; [discriminate | reflexivity]).
  repeat split.
  - apply A. reflexivity.
  - apply B. reflexivity.
  - apply C; [exact D12 | reflexivity].
  - apply D; [exact D12 | now right | reflexivity].
  - apply E; [exact D3 | exact D14 | now left | reflexivity].
Defined.

(** ** The entry point (claim C6) *)

(** A text that begins like a number and that [strtod] rejects is
    InvalidValue, also after leading white space; the number field holds
    what [strtod] returned. *)
Lemma LeptParse_number_error (v : LeptValue) (ws text : string)
  (x : float64) (e : error) :
  all_bytes isSpace ws = true -> number_start text = true ->
  strtod text = Done (x, "", Some e) ->
  LeptParse (Some v) (ws ++ text)
  = Done (LeptParseInvalidValue, set_n (set_typ v LeptNULL) x).
Proof.
  intros Hws Hs F.
  destruct text as [|c0 r]; [discriminate|]. simpl in Hs.
  assert (N : (c0 =? "n")%char = false /\ (c0 =? "t")%char = false
              /\ (c0 =? "f")%char = false
              /\ (c0 =? quotation_mark)%char = false /\ isSpace c0 = false).
  { repeat split; try apply Ascii.eqb_neq; try intros ->; try discriminate.
    unfold isSpace.
    repeat match goal with
           | |- context [(c0 =? ?k)%char] =>
               destruct (Ascii.eqb_spec c0 k); [subst c0; discriminate|]
           end.
    reflexivity. }
  destruct N as (N1 & N2 & N3 & N4 & N5).
  rewrite (LeptParse_steps v ws (String c0 r) Hws)
    by (simpl; now rewrite N5).
  unfold LeptParseValue. simpl. rewrite N1, N2, N3, N4.
  unfold LeptParseNumber. simpl json. rewrite F. reflexivity.
Qed.

(** C6 (code bug).  The entry parse skips the leading white space [ws],
    parses one value from what follows, and then: returns ExpectValue
    when nothing follows the leading white space (the input is empty or
    white space only); when the value parser has parsed a value, skips
    the white space after it and returns RootNotSingular if something
    else is left, and OK otherwise.  parse("  true  ") is OK with the
    true value, parse("true false") is RootNotSingular.  But a number is
    never followed by that skip: when the text behind the leading white
    space begins like a number (with a digit or a minus sign) and holds
    a byte that is no byte of a number, a white space for one, the entry
    parse returns InvalidValue.  So parse("1") is OK, parse("1 ") is
    InvalidValue where the claim says OK, and parse("1 x") is
    InvalidValue where the claim says RootNotSingular. *)
Theorem LeptParse_sequence (v : LeptValue) (ws body : string) :
  all_bytes isSpace ws = true -> stops isSpace body = true ->
  (body = "" ->
   LeptParse (Some v) (ws ++ body)
   = Done (LeptParseExpectValue, set_typ v LeptNULL))
  /\ (forall c1 v1,
        LeptParseValue {| json := body |} (set_typ v LeptNULL)
        = Done (LeptParseOK, c1, v1) ->
        LeptParse (Some v) (ws ++ body)
        = Done (if all_bytes isSpace (json c1) then LeptParseOK
                else LeptParseRootNotSingular, v1))
  /\ LeptParse (Some v) "  true  " = Done (LeptParseOK, set_typ v LeptTRUE)
  /\ LeptParse (Some v) "true false"
     = Done (LeptParseRootNotSingular, set_typ v LeptTRUE)
  /\ (number_start body = true -> all_bytes number_byte body = false ->
      invalid_value v (ws ++ body))
  /\ LeptParse (Some v) "1"
     = Done (LeptParseOK, set_typ (set_n v (f64_of_int 1)) LeptNUMBER)
  /\ LeptParse (Some v) "1 "
     = Done (LeptParseInvalidValue,
             set_n (set_typ v LeptNULL) (f64_of_int 1))
  /\ LeptParse (Some v) "1 x"
     = Done (LeptParseInvalidValue,
             set_n (set_typ v LeptNULL) (f64_of_int 1)).
Proof.
  intros Hws Hbody.
  split; [|split; [|split; [|split; [|split; [|repeat split]]]]].
  - intros ->. now rewrite LeptParse_steps.
  - intros c1 v1 E. rewrite LeptParse_steps, E by assumption. simpl.
    now destruct (all_bytes isSpace (json c1)).
  - reflexivity.
  - reflexivity.
  - intros Hs Hb.
    assert (Hne : body <> "") by (intros ->; discriminate).
    destruct (returns_strtod body Hne) as [[[x e] err] E].
    pose proof (strtod_returns_result body _ E) as [-> N].
    destruct err as [e|]; [|rewrite N in Hb by reflexivity; discriminate].
    exists x. exact (LeptParse_number_error v ws body x e Hws Hs E).
Qed.

Lemma LeptParse_sequence_witness :
  LeptParse (Some NewLeptValue) (" " ++ "null  ")
  = Done (LeptParseOK, set_typ NewLeptValue LeptNULL)
  /\ LeptParse (Some NewLeptValue) (" " ++ "null x")
     = Done (LeptParseRootNotSingular, set_typ NewLeptValue LeptNULL)
  /\ LeptParse (Some NewLeptValue) ("  " ++ "")
     = Done (LeptParseExpectValue, set_typ NewLeptValue LeptNULL)
  /\ invalid_value NewLeptValue (" " ++ "-1.5e3 ").
Proof.
  split; [|split; [|split]].
  - apply (proj1 (proj2 (LeptParse_sequence NewLeptValue " " "null  "
                           eq_refl eq_refl))
             {| json := "  " |} (set_typ NewLeptValue LeptNULL)).
    reflexivity.
  - apply (proj1 (proj2 (LeptParse_sequence NewLeptValue " " "null x"
                           eq_refl eq_refl))
             {| json := " x" |} (set_typ NewLeptValue LeptNULL)).
    reflexivity.
  - apply (proj1 (LeptParse_sequence NewLeptValue "  " "" eq_refl eq_refl)).
    reflexivity.
  - apply (proj1 (proj2 (proj2 (proj2 (proj2
      (LeptParse_sequence NewLeptValue " " "-1.5e3 " eq_refl eq_refl)))))).
    + reflexivity.
    + reflexivity.
Defined.

(** ** Arrays (claim C3) *)

(** C3 (amended).  The parser has no array parser: an input whose first
    byte after the leading white space is a left square bracket goes to
    the number parser and the entry parse returns InvalidValue, the value
    left with the tag LeptNULL; parse("[]") is InvalidValue. *)
Theorem left_bracket_is_invalid (v : LeptValue) (ws rest : string) :
  all_bytes isSpace ws = true ->
  LeptParse (Some v) (ws ++ String "[" rest)
  = Done (LeptParseInvalidValue, set_n (set_typ v LeptNULL) f64_zero)
  /\ LeptParse (Some v) "[]"
     = Done (LeptParseInvalidValue, set_n (set_typ v LeptNULL) f64_zero).
Proof.
  intros H. split; [|reflexivity].
  now rewrite LeptParse_steps.
Qed.

Lemma left_bracket_is_invalid_witness :
  LeptParse (Some NewLeptValue) (" " ++ String "[" "1,2]")
  = Done (LeptParseInvalidValue,
          set_n (set_typ NewLeptValue LeptNULL) f64_zero).
Proof.
  exact (proj1 (left_bracket_is_invalid NewLeptValue " " "1,2]" eq_refl)).
Defined.

(** C3 (as stated) fails: parse("[]") does not return OK, and the value
    is not an array. *)
Lemma empty_array_is_rejected :
  LeptParse (Some NewLeptValue) "[]"
  = Done (LeptParseInvalidValue,
          set_n (set_typ NewLeptValue LeptNULL) f64_zero)
  /\ ~ (exists v, LeptParse (Some NewLeptValue) "[]" = Done (LeptParseOK, v)).
Proof.
  split; [reflexivity|]. intros [v E]. discriminate.
Qed.

(** ** The tag after a failure (claim C5) *)

Ltac tag_leaf :=
  simpl; split; intros; try congruence; try (split; discriminate).

Lemma LeptParseNull_tag (c : LeptContext) (v : LeptValue) :
  post (tag_result v) (LeptParseNull c v).
Proof. unfold LeptParseNull. repeat post_step; tag_leaf. Qed.

Lemma LeptParseTrue_tag (c : LeptContext) (v : LeptValue) :
  post (tag_result v) (LeptParseTrue c v).
Proof. unfold LeptParseTrue. repeat post_step; tag_leaf. Qed.

Lemma LeptParseFalse_tag (c : LeptContext) (v : LeptValue) :
  post (tag_result v) (LeptParseFalse c v).
Proof. unfold LeptParseFalse. repeat post_step; tag_leaf. Qed.

Lemma LeptParseNumber_tag (c : LeptContext) (v : LeptValue) :
  post (tag_result v) (LeptParseNumber c v).
Proof. unfold LeptParseNumber. repeat post_step; tag_leaf. Qed.

Lemma string_loop_tag (c : LeptContext) (v : LeptValue) (rest : string) :
  (forall stack, post (tag_result v) (string_loop c v rest stack))
  /\ (forall ch stack,
        post (tag_result v) (string_loop c v (String ch rest) stack)).
Proof.
  induction rest as [|e rest [IH1 IH2]].
  - split; [intros; apply post_Done; tag_leaf|].
    intros ch stack. simpl. repeat post_step; tag_leaf.
  - split; [exact (IH2 e)|].
    intros ch stack.
    change (string_loop c v (String ch (String e rest)) stack)
      with (if (ch =? quotation_mark)%char
            then Done (LeptParseOK, {| json := String e rest |},
                       set_typ (set_s v stack) LeptSTRING)
            else if (ch =? reverse_solidus)%char
            then match escape e with
                 | Some w => string_loop c v rest (stack ++ w)
                 | None => Done (LeptParseInvalidStringEscape, c, v)
                 end
            else if byte_val ch <? 32
            then Done (LeptParseInvalidStringChar, c, v)
            else string_loop c v (String e rest) (stack ++ String ch "")).
    repeat post_step; try apply IH1; try apply IH2; tag_leaf.
Qed.

Lemma LeptParseString_tag (c : LeptContext) (v : LeptValue) :
  post (tag_result v) (LeptParseString c v).
Proof.
  unfold LeptParseString. apply post_bind. intros c1 _.
  apply string_loop_tag.
Qed.

Lemma LeptParseValue_tag (c : LeptContext) (v : LeptValue) :
  post (tag_result v) (LeptParseValue c v).
Proof.
  unfold LeptParseValue. repeat post_step.
  - tag_leaf.
  - apply LeptParseNull_tag.
  - apply LeptParseTrue_tag.
  - apply LeptParseFalse_tag.
  - apply LeptParseString_tag.
  - apply LeptParseNumber_tag.
Qed.

(** Every failure of the entry parse but RootNotSingular leaves the value
    with the tag LeptNULL, and no parse makes an array or an object. *)
Lemma LeptParse_tag (v v1 : LeptValue) (text : string) (ret : Z) :
  LeptParse (Some v) text = Done (ret, v1) ->
  (ret <> LeptParseOK -> ret <> LeptParseRootNotSingular -> typ v1 = LeptNULL)
  /\ typ v1 <> LeptARRAY /\ typ v1 <> LeptOBJECT.
Proof.
  unfold LeptParse. rewrite LeptParseWhitespace_run. simpl bind at 1.
  destruct (LeptParseValue _ _) as [[[r c1] v2]|p] eqn:E; [|discriminate].
  apply LeptParseValue_tag in E. destruct E as [E1 E2]. simpl in E1.
  simpl. destruct (Z.eqb_spec r LeptParseOK) as [->|N]; simpl.
  - rewrite LeptParseWhitespace_run. simpl.
    destruct (E2 eq_refl) as [A O].
    destruct (negb _); intros R; injection R as <- <-; repeat split;
      congruence.
  - intros R; injection R as <- <-. rewrite (E1 N).
    repeat split; discriminate.
Qed.

(** C5 (the code at the failing input).  On "true false" the entry parse
    returns RootNotSingular and the value keeps the tag LeptTRUE of the
    value parsed before the trailing text: it is not reset to LeptNULL. *)
Theorem root_not_singular_keeps_tag (v : LeptValue) :
  LeptParse (Some v) "true false"
  = Done (LeptParseRootNotSingular, set_typ v LeptTRUE)
  /\ LeptParseRootNotSingular <> LeptParseOK
  /\ typ (set_typ v LeptTRUE) <> LeptNULL.
Proof. repeat split; discriminate. Qed.

(** ** Unicode escapes (claim C1) *)

(** C1 (the code at the failing inputs).  The switch of the string parser
    has no case for u: after every body that the parser accepts, a
    reverse solidus and u, whatever follows, end the parse with
    InvalidStringEscape and the value left Null.  The literal with the
    escape of U+20AC and the literal with the surrogate pair of U+1F600
    are both InvalidStringEscape. *)
Theorem unicode_escape_is_rejected (v : LeptValue) (p w rest : string) :
  string_body p w ->
  let q := String quotation_mark "" in
  let euro := String reverse_solidus "u20AC" in
  let pair := String reverse_solidus "uD83D" ++ String reverse_solidus "uDE00" in
  escape "u" = None
  /\ LeptParse (Some v) (q ++ p ++ String reverse_solidus (String "u" rest))
     = Done (LeptParseInvalidStringEscape, set_typ v LeptNULL)
  /\ LeptParse (Some v) (q ++ euro ++ q)
     = Done (LeptParseInvalidStringEscape, set_typ v LeptNULL)
  /\ LeptParse (Some v) (q ++ pair ++ q)
     = Done (LeptParseInvalidStringEscape, set_typ v LeptNULL).
Proof.
  intros H. repeat split. simpl append at 1.
  now rewrite LeptParse_string, (string_loop_body p w H).
Qed.

Lemma unicode_escape_is_rejected_witness :
  LeptParse (Some NewLeptValue)
    (String quotation_mark ""
     ++ "ab" ++ String reverse_solidus (String "u" "0041"))
  = Done (LeptParseInvalidStringEscape, set_typ NewLeptValue LeptNULL).
Proof.
  assert (B : string_body "ab" "ab").
  { apply body_byte; try reflexivity.
    apply body_byte; try reflexivity.
    apply body_end. }
  exact (proj1 (proj2 (unicode_escape_is_rejected NewLeptValue
                         "ab" "ab" "0041" B))).
Defined.

(** ** The value of a number (claim C2) *)

(** The parser on a few numbers whose value it gets right. *)
Lemma LeptParse_number_examples (v : LeptValue) :
  let number x := Done (LeptParseOK,
                        set_typ (set_n (set_typ v LeptNULL) x) LeptNUMBER) in
  LeptParse (Some v) "0" = number f64_zero
  /\ LeptParse (Some v) "-12" = number (f64_neg (f64_of_int 12))
  /\ LeptParse (Some v) "1.5" = number (S754_finite false 6755399441055744 (-52))
  /\ represents (S754_finite false 6755399441055744 (-52)) 15 10
  /\ LeptParse (Some v) "25e-2" = number (S754_finite false 4503599627370496 (-54))
  /\ represents (S754_finite false 4503599627370496 (-54)) 25 100.
Proof. repeat split. Qed.

(** C2 (the code at the failing inputs).  0.49999237060546875 has 17
    significant digits and is exactly the [float64] 65535/2^17, but the
    parser, which converts the 17 digits after the point to an [int],
    that [int] to a [float64] (rounded) and divides by 1e17 (rounded
    again), returns the [float64] just below it.  0.0000019073486328125
    is exactly 2^-19, with 14 significant digits, but the power of ten by
    which the parser divides is computed in an [int], where 10^19 wraps
    around to a negative number: the parser returns a negative number. *)
Theorem decimal_reconstruction_is_inexact (v : LeptValue) :
  let number x := Done (LeptParseOK,
                        set_typ (set_n (set_typ v LeptNULL) x) LeptNUMBER) in
  (represents (S754_finite false 9007061815787520 (-54))
     49999237060546875 (10 ^ 17)
   /\ LeptParse (Some v) "0.49999237060546875"
      = number (S754_finite false 9007061815787519 (-54))
   /\ ~ represents (S754_finite false 9007061815787519 (-54))
         49999237060546875 (10 ^ 17))
  /\ (represents (S754_finite false 4503599627370496 (-71))
        19073486328125 (10 ^ 19)
      /\ frac_loop 19 0 1 = 10 ^ 19 - 2 ^ 64
      /\ LeptParse (Some v) "0.0000019073486328125"
         = number (S754_finite true 5331758116583557 (-71))
      /\ ~ represents (S754_finite true 5331758116583557 (-71))
            19073486328125 (10 ^ 19)).
Proof.
  repeat split; try (vm_compute; reflexivity).
  - intros [_ H]. vm_compute in H. discriminate.
  - intros [_ H]. vm_compute in H. discriminate.
Qed.

(** * Further properties of the package *)

(** ** The merged literal parser *)

Ltac split_bytes :=
  repeat match goal with
         | |- context [(?x =? ?y)%char] => destruct (x =? y)%char; simpl
         end.

(** X1.  The merged literal parser does what the three literal parsers
    do: called with null, true or false and the matching tag it returns
    the same result as LeptParseNull, LeptParseTrue or LeptParseFalse, on
    every cursor and value, the panics included. *)
Theorem LeptParseLiteral_merges (c : LeptContext) (v : LeptValue) :
  LeptParseLiteral c v "null" LeptNULL = LeptParseNull c v
  /\ LeptParseLiteral c v "true" LeptTRUE = LeptParseTrue c v
  /\ LeptParseLiteral c v "false" LeptFALSE = LeptParseFalse c v.
Proof.
  destruct c as [j].
  repeat split.
  - destruct j as [|a [|b [|c1 [|d r]]]];
      unfold LeptParseLiteral, LeptParseNull, expect, orM, differs; simpl;
      split_bytes; try reflexivity.
  - destruct j as [|a [|b [|c1 [|d r]]]];
      unfold LeptParseLiteral, LeptParseTrue, expect, orM, differs; simpl;
      split_bytes; try reflexivity.
  - destruct j as [|a [|b [|c1 [|d [|e r]]]]];
      unfold LeptParseLiteral, LeptParseFalse, expect, orM, differs; simpl;
      split_bytes; try reflexivity.
Qed.

(** ** White space *)

(** X2.  LeptParseWhitespace never fails; it removes the longest prefix
    of space, tab, line feed and carriage return bytes and nothing else,
    leaves a cursor that does not begin with white space, and a second
    call changes nothing. *)
Theorem LeptParseWhitespace_strips (c : LeptContext) :
  exists ws c',
    LeptParseWhitespace c = Done c'
    /\ json c = ws ++ json c'
    /\ all_bytes isSpace ws = true
    /\ stops isSpace (json c') = true
    /\ LeptParseWhitespace c' = Done c'.
Proof.
  exists (take (whitespace_run (json c)) (json c)),
         {| json := drop (whitespace_run (json c)) (json c) |}.
  split; [apply LeptParseWhitespace_run|].
  split; [simpl; now rewrite take_drop|].
  split; [apply take_whitespace_run|].
  split; [apply drop_whitespace_run|].
  rewrite LeptParseWhitespace_run. simpl.
  pose proof (drop_whitespace_run (json c)) as H.
  destruct (drop (whitespace_run (json c)) (json c)) as [|ch r]; [reflexivity|].
  simpl in H. apply negb_true_iff in H. simpl. now rewrite H.
Qed.

(** ** The results of the entry parse *)

Ltac code_leaf :=
  simpl; unfold string_error; auto 10.

Lemma string_loop_codes (c : LeptContext) (v : LeptValue) (rest : string) :
  (forall stack,
      post (fun '(ret, _, _) => ret = LeptParseOK \/ string_error ret)
        (string_loop c v rest stack))
  /\ (forall ch stack,
        post (fun '(ret, _, _) => ret = LeptParseOK \/ string_error ret)
          (string_loop c v (String ch rest) stack)).
Proof.
  induction rest as [|e rest [IH1 IH2]].
  - split; [intros; apply post_Done; code_leaf|].
    intros ch stack. simpl. repeat post_step; code_leaf.
  - split; [exact (IH2 e)|].
    intros ch stack.
    change (string_loop c v (String ch (String e rest)) stack)
      with (if (ch =? quotation_mark)%char
            then Done (LeptParseOK, {| json := String e rest |},
                       set_typ (set_s v stack) LeptSTRING)
            else if (ch =? reverse_solidus)%char
            then match escape e with
                 | Some w => string_loop c v rest (stack ++ w)
                 | None => Done (LeptParseInvalidStringEscape, c, v)
                 end
            else if byte_val ch <? 32
            then Done (LeptParseInvalidStringChar, c, v)
            else string_loop c v (String e rest) (stack ++ String ch "")).
    repeat post_step; try apply IH1; try apply IH2; code_leaf.
Qed.

Lemma LeptParseValue_codes (c : LeptContext) (v : LeptValue) :
  post (code_result c) (LeptParseValue c v).
Proof.
  unfold code_result. destruct c as [[|c0 r]]; simpl json.
  - unfold LeptParseValue. simpl. apply post_Done. reflexivity.
  - unfold LeptParseValue. simpl.
    destruct (Ascii.eqb_spec c0 "n") as [->|N1].
    { unfold LeptParseNull. simpl. repeat post_step; code_leaf. }
    destruct (Ascii.eqb_spec c0 "t") as [->|N2].
    { unfold LeptParseTrue. simpl. repeat post_step; code_leaf. }
    destruct (Ascii.eqb_spec c0 "f") as [->|N3].
    { unfold LeptParseFalse. simpl. repeat post_step; code_leaf. }
    destruct (c0 =? quotation_mark)%char eqn:Q.
    + apply Ascii.eqb_eq in Q. subst c0. unfold LeptParseString. rewrite expect_first. simpl bind.
      apply string_loop_codes.
    + unfold LeptParseNumber. repeat post_step; code_leaf.
Qed.

Lemma stops_all_empty (p : ascii -> bool) (t : string) :
  stops p t = true -> all_bytes p t = true -> t = "".
Proof.
  destruct t as [|ch r]; [reflexivity|]. simpl.
  intros H1 H2. apply andb_true_iff in H2 as [H2 _].
  rewrite H2 in H1. discriminate.
Qed.

Ltac codes :=
  unfold parse_code, string_error, LeptParseOK, LeptParseExpectValue,
    LeptParseInvalidValue, LeptParseRootNotSingular, LeptParseNumberTooBig,
    LeptParseMissQuotationMark, LeptParseInvalidStringEscape,
    LeptParseInvalidStringChar in *.

(** X3.  The entry parse returns one of seven results and never
    NumberTooBig.  It returns ExpectValue exactly when the input is empty
    or white space only; one of the three string errors only when the
    first byte after the leading white space is a quotation mark; and
    InvalidValue only when that byte is something else. *)
Theorem LeptParse_codes (v v' : LeptValue) (text : string) (ret : Z) :
  LeptParse (Some v) text = Done (ret, v') ->
  parse_code ret
  /\ ret <> LeptParseNumberTooBig
  /\ (ret = LeptParseExpectValue <-> all_bytes isSpace text = true)
  /\ (string_error ret ->
      exists ws r,
        text = ws ++ String quotation_mark r /\ all_bytes isSpace ws = true)
  /\ (ret = LeptParseInvalidValue ->
      exists ws ch r,
        text = ws ++ String ch r /\ all_bytes isSpace ws = true
        /\ isSpace ch = false /\ ch <> quotation_mark).
Proof.
  destruct (whitespace_split text) as (ws & body & -> & Hws & Hbody).
  rewrite LeptParse_steps by assumption.
  destruct (LeptParseValue _ _) as [[[r c1] v1]|p] eqn:E; [|discriminate].
  apply LeptParseValue_codes in E. unfold code_result in E. simpl json in E.
  assert (A : all_bytes isSpace (ws ++ body) = true <-> body = "").
  { rewrite all_bytes_app, Hws. simpl. split.
    - now apply stops_all_empty.
    - now intros ->. }
  simpl. intros R.
  assert (F : ret = if r =? LeptParseOK
                    then if all_bytes isSpace (json c1) then LeptParseOK
                         else LeptParseRootNotSingular
                    else r).
  { destruct (r =? LeptParseOK); simpl in R;
      [destruct (all_bytes isSpace (json c1))|]; now injection R. }
  clear R. rewrite A. codes.
  destruct body as [|ch b].
  - subst r. simpl in F. subst ret.
    repeat split; try lia; auto 10; intros H; exfalso; lia.
  - simpl in Hbody. apply negb_true_iff in Hbody.
    assert (C : ret = 0 \/ ret = 3 \/ (ret = r /\ r <> 0)).
    { destruct (Z.eqb_spec r 0); [destruct (all_bytes isSpace (json c1))|];
        auto. }
    clear F.
    destruct (Ascii.eqb_spec ch quotation_mark) as [->|Nq].
    + split; [lia|]. split; [lia|]. split; [split; [lia|discriminate]|].
      split; [intros _; now exists ws, b | intros H; exfalso; lia].
    + split; [lia|]. split; [lia|]. split; [split; [lia|discriminate]|].
      split; [intros H; exfalso; lia | intros _; now exists ws, ch, b].
Qed.

Lemma LeptParse_codes_witness :
  exists ws ch r,
    " x" = ws ++ String ch r /\ all_bytes isSpace ws = true
    /\ isSpace ch = false /\ ch <> quotation_mark.
Proof.
  apply (proj2 (proj2 (proj2 (proj2
    (LeptParse_codes NewLeptValue
       (set_n (set_typ NewLeptValue LeptNULL) f64_zero) " x"
       LeptParseInvalidValue eq_refl))))).
  reflexivity.
Defined.

(** ** What the parsers accept *)

Ltac bytes_eq :=
  repeat match goal with
         | |- context [(?x =? ?y)%char] =>
             destruct (Ascii.eqb_spec x y); [subst x|]; simpl
         end.

Lemma LeptParseNull_ok (c c' : LeptContext) (v v' : LeptValue) :
  LeptParseNull c v = Done (LeptParseOK, c', v') ->
  json c = "null" ++ json c' /\ v' = set_typ v LeptNULL.
Proof.
  destruct c as [[|a [|b [|c1 [|d r]]]]];
    unfold LeptParseNull, expect, orM, differs; simpl; bytes_eq;
    try discriminate.
  intros E. injection E as <- <-. now split.
Qed.

Lemma LeptParseTrue_ok (c c' : LeptContext) (v v' : LeptValue) :
  LeptParseTrue c v = Done (LeptParseOK, c', v') ->
  json c = "true" ++ json c' /\ v' = set_typ v LeptTRUE.
Proof.
  destruct c as [[|a [|b [|c1 [|d r]]]]];
    unfold LeptParseTrue, expect, orM, differs; simpl; bytes_eq;
    try discriminate.
  intros E. injection E as <- <-. now split.
Qed.

Lemma LeptParseFalse_ok (c c' : LeptContext) (v v' : LeptValue) :
  LeptParseFalse c v = Done (LeptParseOK, c', v') ->
  json c = "false" ++ json c' /\ v' = set_typ v LeptFALSE.
Proof.
  destruct c as [[|a [|b [|c1 [|d [|e r]]]]]];
    unfold LeptParseFalse, expect, orM, differs; simpl; bytes_eq;
    try discriminate.
  intros E. injection E as <- <-. now split.
Qed.

Lemma string_loop_ok (c : LeptContext) (v : LeptValue) (rest : string) :
  (forall stack c' v',
      string_loop c v rest stack = Done (LeptParseOK, c', v') ->
      exists p w,
        rest = p ++ String quotation_mark (json c')
        /\ string_body p w
        /\ v' = set_typ (set_s v (stack ++ w)) LeptSTRING)
  /\ (forall ch stack c' v',
        string_loop c v (String ch rest) stack = Done (LeptParseOK, c', v') ->
        exists p w,
          String ch rest = p ++ String quotation_mark (json c')
          /\ string_body p w
          /\ v' = set_typ (set_s v (stack ++ w)) LeptSTRING).
Proof.
  induction rest as [|e rest [IH1 IH2]].
  - split; [intros stack c' v' E; discriminate|].
    intros ch stack c' v'. simpl.
    destruct (Ascii.eqb_spec ch quotation_mark) as [->|Nq].
    + intros E. injection E as <- <-. exists "", "". simpl.
      rewrite string_app_empty_r. repeat split. constructor.
    + destruct (ch =? reverse_solidus)%char; [discriminate|].
      destruct (byte_val ch <? 32); discriminate.
  - split; [exact (IH2 e)|].
    intros ch stack c' v'.
    change (string_loop c v (String ch (String e rest)) stack)
      with (if (ch =? quotation_mark)%char
            then Done (LeptParseOK, {| json := String e rest |},
                       set_typ (set_s v stack) LeptSTRING)
            else if (ch =? reverse_solidus)%char
            then match escape e with
                 | Some w => string_loop c v rest (stack ++ w)
                 | None => Done (LeptParseInvalidStringEscape, c, v)
                 end
            else if byte_val ch <? 32
            then Done (LeptParseInvalidStringChar, c, v)
            else string_loop c v (String e rest) (stack ++ String ch "")).
    destruct (Ascii.eqb_spec ch quotation_mark) as [->|Nq].
    + intros E. injection E as <- <-. exists "", "". simpl.
      rewrite string_app_empty_r. repeat split. constructor.
    + destruct (Ascii.eqb_spec ch reverse_solidus) as [->|Nb].
      * destruct (escape e) as [x|] eqn:Esc; [|discriminate].
        intros E. apply IH1 in E as (p & w & -> & B & ->).
        exists (String reverse_solidus (String e p)), (x ++ w).
        repeat split.
        -- now apply body_escape.
        -- now rewrite string_app_assoc.
      * destruct (byte_val ch <? 32) eqn:Lo; [discriminate|].
        intros E. apply IH2 in E as (p & w & Ep & B & ->).
        exists (String ch p), (String ch w). repeat split.
        -- simpl. now rewrite Ep.
        -- apply body_byte; try assumption; now apply Ascii.eqb_neq.
        -- now rewrite string_app_assoc.
Qed.

Lemma LeptParseString_ok (c c' : LeptContext) (v v' : LeptValue) :
  LeptParseString c v = Done (LeptParseOK, c', v') ->
  exists p w,
    json c = String quotation_mark (p ++ String quotation_mark (json c'))
    /\ string_body p w
    /\ v' = set_typ (set_s v w) LeptSTRING.
Proof.
  unfold LeptParseString, expect. destruct c as [[|a r]]; simpl;
    [discriminate|].
  destruct (Ascii.eqb_spec a quotation_mark) as [->|N]; simpl;
    [|discriminate].
  intros E. apply (proj1 (string_loop_ok _ _ _)) in E as (p & w & -> & B & ->).
  now exists p, w.
Qed.

Lemma LeptParseNumber_ok (c c' : LeptContext) (v v' : LeptValue) :
  LeptParseNumber c v = Done (LeptParseOK, c', v') ->
  json c' = ""
  /\ exists x,
       strtod (json c) = Done (x, "", None)
       /\ v' = set_typ (set_n v x) LeptNUMBER.
Proof.
  unfold LeptParseNumber.
  destruct (strtod (json c)) as [[[x e] err]|p] eqn:E; [|discriminate].
  pose proof (strtod_returns_result _ _ E) as [-> _].
  destruct err as [e|]; simpl; [discriminate|].
  intros R. injection R as <- <-. split; [reflexivity|]. now exists x.
Qed.

Lemma LeptParseValue_ok (c c' : LeptContext) (v v' : LeptValue) :
  LeptParseValue c v = Done (LeptParseOK, c', v') ->
  (json c = "null" ++ json c' /\ v' = set_typ v LeptNULL)
  \/ (json c = "true" ++ json c' /\ v' = set_typ v LeptTRUE)
  \/ (json c = "false" ++ json c' /\ v' = set_typ v LeptFALSE)
  \/ (exists p w,
        json c = String quotation_mark (p ++ String quotation_mark (json c'))
        /\ string_body p w /\ v' = set_typ (set_s v w) LeptSTRING)
  \/ (json c' = ""
      /\ exists x,
           strtod (json c) = Done (x, "", None)
           /\ v' = set_typ (set_n v x) LeptNUMBER).
Proof.
  unfold LeptParseValue. destruct (json c) as [|c0 r] eqn:J; simpl;
    [discriminate|].
  destruct (c0 =? "n")%char.
  { intros E. apply LeptParseNull_ok in E. rewrite J in E. auto. }
  destruct (c0 =? "t")%char.
  { intros E. apply LeptParseTrue_ok in E. rewrite J in E. auto. }
  destruct (c0 =? "f")%char.
  { intros E. apply LeptParseFalse_ok in E. rewrite J in E. auto. }
  destruct (c0 =? quotation_mark)%char.
  { intros E. apply LeptParseString_ok in E. rewrite J in E. auto 6. }
  intros E. apply LeptParseNumber_ok in E. rewrite J in E. auto 6.
Qed.

Lemma LeptParse_ok (v v' : LeptValue) (text : string) :
  LeptParse (Some v) text = Done (LeptParseOK, v') ->
  exists ws body c1,
    text = ws ++ body /\ all_bytes isSpace ws = true
    /\ LeptParseValue {| json := body |} (set_typ v LeptNULL)
       = Done (LeptParseOK, c1, v')
    /\ all_bytes isSpace (json c1) = true.
Proof.
  destruct (whitespace_split text) as (ws & body & -> & Hws & Hbody).
  rewrite LeptParse_steps by assumption.
  destruct (LeptParseValue _ _) as [[[r c1] v1]|p] eqn:E; [|discriminate].
  simpl. destruct (Z.eqb_spec r LeptParseOK) as [->|N]; simpl.
  - destruct (all_bytes isSpace (json c1)) eqn:S; [|discriminate].
    intros R. injection R as <-. now exists ws, body, c1.
  - intros R. injection R as -> _. contradiction.
Qed.

Lemma LeptParse_from_value (v v1 : LeptValue) (ws body ws' : string) :
  all_bytes isSpace ws = true -> stops isSpace body = true ->
  all_bytes isSpace ws' = true ->
  LeptParseValue {| json := body |} (set_typ v LeptNULL)
  = Done (LeptParseOK, {| json := ws' |}, v1) ->
  LeptParse (Some v) (ws ++ body) = Done (LeptParseOK, v1).
Proof.
  intros Hws Hbody Hws' E. rewrite LeptParse_steps, E by assumption.
  simpl. now rewrite Hws'.
Qed.

(** X4.  The entry parse returns OK with the tag LeptNULL exactly on the
    inputs that are null between two runs of white space, and then the
    value is the given one with that tag; likewise for LeptTRUE and true,
    and for LeptFALSE and false. *)
Theorem literal_acceptance (v v' : LeptValue) (text : string) :
  (LeptParse (Some v) text = Done (LeptParseOK, v') /\ typ v' = LeptNULL
   <-> exists ws ws',
         text = ws ++ "null" ++ ws' /\ all_bytes isSpace ws = true
         /\ all_bytes isSpace ws' = true /\ v' = set_typ v LeptNULL)
  /\ (LeptParse (Some v) text = Done (LeptParseOK, v') /\ typ v' = LeptTRUE
      <-> exists ws ws',
            text = ws ++ "true" ++ ws' /\ all_bytes isSpace ws = true
            /\ all_bytes isSpace ws' = true /\ v' = set_typ v LeptTRUE)
  /\ (LeptParse (Some v) text = Done (LeptParseOK, v') /\ typ v' = LeptFALSE
      <-> exists ws ws',
            text = ws ++ "false" ++ ws' /\ all_bytes isSpace ws = true
            /\ all_bytes isSpace ws' = true /\ v' = set_typ v LeptFALSE).
Proof.
  split; [|split].
  all: split.
  1,3,5: intros [E T];
    apply LeptParse_ok in E as (ws & body & c1 & -> & Hws & E & Hc);
    apply LeptParseValue_ok in E;
    destruct E as [[J ->]|[[J ->]|[[J ->]|[(p & w & J & B & ->)
                                          |[J (x & _ & ->)]]]]];
    try discriminate; simpl in J; subst body; now exists ws, (json c1).
  all: intros (ws & ws' & -> & Hws & Hws' & ->).
  all: split; [|reflexivity].
  all: now apply (LeptParse_from_value v _ ws _ ws').
Qed.

(** ** Parsed strings *)

Lemma escape_payload (e : ascii) (x : string) :
  escape e = Some x ->
  all_bytes payload_byte x = true /\ String.length x = 1%nat.
Proof.
  unfold escape.
  repeat match goal with
         | |- context [(e =? ?k)%char] => destruct (e =? k)%char
         end;
    intros E; try discriminate; injection E as <-; now split.
Qed.

Lemma string_body_payload (p w : string) :
  string_body p w ->
  all_bytes payload_byte w = true
  /\ (String.length w <= String.length p)%nat.
Proof.
  induction 1 as [|ch p w Hq Hb Hc _ [IH1 IH2]|e x p w He _ [IH1 IH2]].
  - now split.
  - simpl. split; [|lia]. rewrite IH1. unfold payload_byte. now rewrite Hc.
  - destruct (escape_payload e x He) as [P L].
    rewrite all_bytes_app, string_length_app, P, IH1, L. simpl. split; [reflexivity|lia].
Qed.

Lemma string_body_closed (v : LeptValue) (p w ws' : string) :
  string_body p w ->
  LeptParseValue {| json := String quotation_mark (p ++ String quotation_mark ws') |} v
  = Done (LeptParseOK, {| json := ws' |}, set_typ (set_s v w) LeptSTRING).
Proof.
  intros B. rewrite LeptParseValue_string, (string_loop_body p w B).
  simpl. reflexivity.
Qed.

(** X5.  The entry parse returns OK with the tag LeptSTRING exactly on
    the inputs that are, between two runs of white space, a quotation
    mark, a body of unescaped bytes and two-byte escapes, and a quotation
    mark; the string of the value is then the decoded body. *)
Theorem string_acceptance (v v' : LeptValue) (text : string) :
  LeptParse (Some v) text = Done (LeptParseOK, v') /\ typ v' = LeptSTRING
  <-> exists ws p w ws',
        text = ws ++ String quotation_mark (p ++ String quotation_mark ws')
        /\ all_bytes isSpace ws = true /\ all_bytes isSpace ws' = true
        /\ string_body p w
        /\ v' = set_typ (set_s v w) LeptSTRING.
Proof.
  split.
  - intros [E T].
    apply LeptParse_ok in E as (ws & body & c1 & -> & Hws & E & Hc).
    apply LeptParseValue_ok in E.
    destruct E as [[J ->]|[[J ->]|[[J ->]|[(p & w & J & B & ->)
                                          |[J (x & _ & ->)]]]]];
      try discriminate.
    simpl in J. subst body. now exists ws, p, w, (json c1).
  - intros (ws & p & w & ws' & -> & Hws & Hws' & B & ->).
    split; [|reflexivity].
    apply (LeptParse_from_value v _ ws _ ws'); try easy.
    exact (string_body_closed (set_typ v LeptNULL) p w ws' B).
Qed.

(** X6.  A string that was parsed holds no control byte other than
    backspace, tab, line feed, form feed and carriage return; it is at
    least two bytes shorter than the input; and LeptGetString and
    LeptGetStringLength return it and its length. *)
Theorem parsed_string_payload (v v' : LeptValue) (text : string) :
  LeptParse (Some v) text = Done (LeptParseOK, v') -> typ v' = LeptSTRING ->
  all_bytes payload_byte (s v') = true
  /\ (String.length (s v') + 2 <= String.length text)%nat
  /\ LeptGetString (Some v') = Done (s v')
  /\ LeptGetStringLength (Some v') = Done (Z.of_nat (String.length (s v'))).
Proof.
  intros E T.
  apply LeptParse_ok in E as (ws & body & c1 & -> & Hws & E & Hc).
  apply LeptParseValue_ok in E.
  destruct E as [[J ->]|[[J ->]|[[J ->]|[(p & w & J & B & ->)
                                        |[J (x & _ & ->)]]]]];
    try discriminate.
  simpl in J. subst body. simpl s.
  destruct (string_body_payload p w B) as [P L].
  repeat split; [exact P|].
  rewrite string_length_app. simpl. rewrite string_length_app. simpl. lia.
Qed.

Lemma parsed_string_payload_witness :
  all_bytes payload_byte "a/" = true.
Proof.
  apply (parsed_string_payload NewLeptValue
           (set_typ (set_s (set_typ NewLeptValue LeptNULL) "a/") LeptSTRING)
           (String quotation_mark ("a\/" ++ String quotation_mark " "))
           eq_refl eq_refl).
Defined.

Lemma payload_body (w : string) :
  all_bytes payload_byte w = true <-> exists p, string_body p w.
Proof.
  split.
  - induction w as [|ch w IH]; [exists ""; constructor|].
    simpl. intros H. apply andb_true_iff in H as [Hc Hw].
    destruct (IH Hw) as [p B].
    destruct (Ascii.eqb_spec ch quotation_mark) as [->|Nq].
    { exists (String reverse_solidus (String quotation_mark p)).
      now apply (body_escape quotation_mark (String quotation_mark "")). }
    destruct (Ascii.eqb_spec ch reverse_solidus) as [->|Nb].
    { exists (String reverse_solidus (String reverse_solidus p)).
      now apply (body_escape reverse_solidus (String reverse_solidus "")). }
    destruct (byte_val ch <? 32) eqn:Lo.
    + unfold payload_byte in Hc. rewrite Lo in Hc. simpl in Hc.
      destruct (Ascii.eqb_spec ch backspace) as [->|N1].
      { exists (String reverse_solidus (String "b" p)).
        now apply (body_escape "b" (String backspace "")). }
      destruct (Ascii.eqb_spec ch form_feed) as [->|N2].
      { exists (String reverse_solidus (String "f" p)).
        now apply (body_escape "f" (String form_feed "")). }
      destruct (Ascii.eqb_spec ch line_feed) as [->|N3].
      { exists (String reverse_solidus (String "n" p)).
        now apply (body_escape "n" (String line_feed "")). }
      destruct (Ascii.eqb_spec ch carriage_return) as [->|N4].
      { exists (String reverse_solidus (String "r" p)).
        now apply (body_escape "r" (String carriage_return "")). }
      destruct (Ascii.eqb_spec ch tab) as [->|N5].
      { exists (String reverse_solidus (String "t" p)).
        now apply (body_escape "t" (String tab "")). }
      discriminate.
    + exists (String ch p). apply body_byte; try assumption;
        now apply Ascii.eqb_neq.
  - intros [p B]. now apply (string_body_payload p w).
Qed.

(** X7.  The strings that the parser can produce are exactly those
    without a control byte other than the five that have an escape: the
    entry parse returns OK with the tag LeptSTRING and the string w for
    some input exactly when w holds no other control byte. *)
Theorem payload_has_a_literal (v : LeptValue) (w : string) :
  all_bytes payload_byte w = true
  <-> exists text v',
        LeptParse (Some v) text = Done (LeptParseOK, v')
        /\ typ v' = LeptSTRING /\ s v' = w.
Proof.
  split.
  - intros H. apply payload_body in H as [p B].
    exists (String quotation_mark (p ++ String quotation_mark "")),
      (set_typ (set_s v w) LeptSTRING).
    split; [|split; reflexivity].
    apply (LeptParse_from_value v _ "" _ ""); try reflexivity.
    exact (string_body_closed (set_typ v LeptNULL) p w "" B).
  - intros (text & v' & E & T & <-).
    apply LeptParse_ok in E as (ws & body & c1 & -> & Hws & E & Hc).
    apply LeptParseValue_ok in E.
    destruct E as [[J ->]|[[J ->]|[[J ->]|[(p & w & J & B & ->)
                                          |[J (x & _ & ->)]]]]];
      try discriminate.
    apply (string_body_payload p w B).
Qed.

(** ** The number grammar *)

Lemma digits_some (ds : string) :
  all_bytes isDigit ds = true ->
  forall acc, 0 <= acc ->
    exists m, strconv.digits ds acc = Some m /\ 0 <= m.
Proof.
  induction ds as [|ch ds IH]; simpl; intros H acc Hacc.
  - now exists acc.
  - apply andb_true_iff in H as [H1 H2]. rewrite H1.
    apply IH; [exact H2|].
    unfold isDigit in H1. apply andb_true_iff in H1 as [L _].
    apply Z.leb_le in L. lia.
Qed.

Lemma Atoi_digits (ds : string) :
  digits1 ds ->
  strconv.Atoi ds
  = if MaxInt <? digits_value ds then (MaxInt, Some ErrRange)
    else (digits_value ds, None).
Proof.
  intros D. destruct (digits1_first ds D) as (d0 & r & -> & Hd0 & Hr).
  destruct D as [_ D].
  destruct (digits_some _ D 0 ltac:(lia)) as (m & E & Hm).
  unfold strconv.Atoi, digits_value.
  rewrite (digit_differs d0 "-" Hd0 eq_refl), (digit_differs d0 "+" Hd0 eq_refl).
  rewrite E.
  destruct (Z.ltb_spec m MinInt) as [L|_]; [|reflexivity].
  exfalso. unfold MinInt, intSize in L. simpl in L. lia.
Qed.

Lemma Atoi_fits (ds : string) :
  fits ds -> strconv.Atoi ds = (digits_value ds, None).
Proof.
  intros [D F]. rewrite (Atoi_digits ds D).
  destruct (Z.ltb_spec MaxInt (digits_value ds)); [lia | reflexivity].
Qed.

Lemma Atoi_ok_fits (ds : string) (z : Z) :
  digits1 ds -> strconv.Atoi ds = (z, None) ->
  fits ds /\ z = digits_value ds.
Proof.
  intros D A. rewrite (Atoi_digits ds D) in A.
  destruct (Z.ltb_spec MaxInt (digits_value ds)); [discriminate|].
  injection A as <-. split; [split; assumption | reflexivity].
Qed.

Lemma drop_digit_run (t : string) :
  stops isDigit (drop (digit_run t) t) = true.
Proof.
  induction t as [|ch r IH]; simpl; [reflexivity|].
  destruct (isDigit ch) eqn:E; simpl; [exact IH | now rewrite E].
Qed.

Lemma parseInteger_ok (input rest : string) (z : Z) :
  parseInteger input = Done (rest, z, None) ->
  exists ds,
    input = ds ++ rest /\ fits ds /\ stops isDigit rest = true
    /\ z = digits_value ds.
Proof.
  intros P. pose proof P as P'. apply parseInteger_inv in P' as (ds' & _ & _).
  revert P. unfold parseInteger.
  rewrite slice_to_le by apply digit_run_le. simpl.
  destruct (strconv.Atoi _) as [i [e|]] eqn:A; [discriminate|].
  rewrite slice_from_le by apply digit_run_le. simpl.
  intros E. injection E as <- <-.
  set (ds := take (digit_run input) input) in *.
  assert (D : digits1 ds).
  { split; [|apply take_digit_run]. intros Z0. rewrite Z0 in A. discriminate. }
  destruct (Atoi_ok_fits ds i D A) as [F ->].
  exists ds. repeat split; try apply F.
  - unfold ds. now rewrite take_drop.
  - apply drop_digit_run.
Qed.

Lemma parseInteger_fits (ds t : string) :
  fits ds -> stops isDigit t = true ->
  parseInteger (ds ++ t) = Done (t, digits_value ds, None).
Proof.
  intros F Ht. rewrite parseInteger_app by (try apply F; assumption).
  now rewrite (Atoi_fits ds F).
Qed.

(** How the pieces of the program compute on an input of a known shape. *)
Lemma bind_Done {A B : Type} (a : A) (k : A -> exec B) :
  bind (Done a) k = k a.
Proof. reflexivity. Qed.

Lemma index_first (ch : ascii) (r : string) : index (String ch r) 0 = Done ch.
Proof. reflexivity. Qed.

Lemma is_at_0 (ch k : ascii) (r : string) :
  is_at (String ch r) 0 k = Done (ch =? k)%char.
Proof. reflexivity. Qed.

Lemma is_at_1 (c0 ch k : ascii) (r : string) :
  is_at (String c0 (String ch r)) 1 k = Done (ch =? k)%char.
Proof. reflexivity. Qed.

Lemma slice_from_1 (ch : ascii) (r : string) :
  slice_from (String ch r) 1 = Done r.
Proof. reflexivity. Qed.

Lemma slice_from_2 (c0 c1 : ascii) (r : string) :
  slice_from (String c0 (String c1 r)) 2 = Done r.
Proof. reflexivity. Qed.

Lemma orM_Done (b : bool) (m : exec bool) :
  orM (Done b) m = if b then Done true else m.
Proof. reflexivity. Qed.

Lemma andM_Done (b : bool) (m : exec bool) :
  andM (Done b) m = if b then m else Done false.
Proof. reflexivity. Qed.

Create Rewrite HintDb go_eval.

#[local] Hint Rewrite @bind_Done index_first is_at_0 is_at_1 slice_from_1
  slice_from_2 orM_Done andM_Done : go_eval.

Lemma parseFrac_fits (fd t : string) :
  fits fd -> stops isDigit t = true ->
  parseFrac (String "." (fd ++ t)) = Done (t, digits_value fd, None).
Proof.
  intros F Ht. unfold parseFrac. autorewrite with go_eval. simpl.
  now apply parseInteger_fits.
Qed.

Lemma parseExp_fits (c : ascii) (sg ed t : string) :
  (c = "e" \/ c = "E")%char -> (sg = "" \/ sg = "-" \/ sg = "+") ->
  fits ed -> stops isDigit t = true ->
  parseExp (String c (sg ++ ed ++ t))
  = Done (t, if (sg =? "-")%string then wrap (- digits_value ed)
             else digits_value ed, None).
Proof.
  intros Hc Hs F Ht.
  destruct (digits1_first ed (proj1 F)) as (d0 & r & E & Hd0 & _).
  assert (L : (String.length (String c (sg ++ ed ++ t)) =? 1)%nat = false).
  { rewrite E. destruct Hs as [->|[->| ->]]; reflexivity. }
  assert (Ec : orM (is_at (String c (sg ++ ed ++ t)) 0 "e")
                 (is_at (String c (sg ++ ed ++ t)) 0 "E") = Done true).
  { autorewrite with go_eval. destruct Hc as [->| ->]; reflexivity. }
  unfold parseExp. rewrite Ec, bind_Done, L.
  destruct Hs as [->|[->| ->]]; simpl append.
  - rewrite E. simpl append. autorewrite with go_eval.
    rewrite (digit_differs d0 "-" Hd0 eq_refl), (digit_differs d0 "+" Hd0 eq_refl).
    autorewrite with go_eval.
    change (String d0 (r ++ t)) with (String d0 r ++ t). rewrite <- E.
    rewrite (parseInteger_fits ed t F Ht). reflexivity.
  - autorewrite with go_eval. simpl.
    rewrite (parseInteger_fits ed t F Ht). reflexivity.
  - autorewrite with go_eval. simpl.
    rewrite (parseInteger_fits ed t F Ht). reflexivity.
Qed.

Lemma return_signed_value (neg : bool) (x : float64) :
  return_signed neg x = Done (signed neg x, "", None).
Proof. now destruct neg. Qed.

Lemma frac_loop_count (fd t : string) (x : Z) :
  frac_loop (String.length (fd ++ t)) (String.length t) x
  = frac_loop (String.length fd) 0 x.
Proof.
  unfold frac_loop. rewrite string_length_app. f_equal. lia.
Qed.

Lemma exp_text_stops (e : option (ascii * string * string)) :
  match e with
  | Some (c, _, _) => (c = "e" \/ c = "E")%char
  | None => True
  end ->
  stops isDigit (exp_text e) = true.
Proof.
  destruct e as [[[c sg] ed]|]; [|reflexivity].
  intros [->| ->]; reflexivity.
Qed.

Lemma strtod_frac_exp_value (neg : bool) (z : Z) (f : option string)
  (e : option (ascii * string * string)) :
  match f with Some fd => fits fd | None => True end ->
  match e with
  | Some (c, sg, ed) =>
      (c = "e" \/ c = "E")%char /\ (sg = "" \/ sg = "-" \/ sg = "+")
      /\ fits ed
  | None => True
  end ->
  frac_text f ++ exp_text e <> "" ->
  strtod_frac_exp neg z (frac_text f ++ exp_text e)
  = Done (signed neg (frac_exp_value (f64_of_int z) f e), "", None).
Proof.
  intros Hf He Hne.
  assert (Se : stops isDigit (exp_text e) = true).
  { apply exp_text_stops. destruct e as [[[c sg] ed]|]; [apply He | exact I]. }
  destruct f as [fd|]; simpl frac_text.
  - (* a fraction *)
    unfold strtod_frac_exp. simpl append. autorewrite with go_eval.
    cbn [Ascii.eqb Bool.eqb]. cbv iota.
    rewrite (parseFrac_fits fd (exp_text e) Hf Se), bind_Done.
    cbv iota beta.
    replace (String.length (String "." (fd ++ exp_text e)) - 1)%nat
      with (String.length (fd ++ exp_text e)) by (simpl; lia).
    rewrite frac_loop_count.
    destruct e as [[[c sg] ed]|]; simpl exp_text.
    + destruct He as (Hc & Hs & Fe).
      simpl String.length. cbn [Nat.eqb]. autorewrite with go_eval.
      replace (if (c =? "e")%char then Done true else Done (c =? "E")%char)
        with (Done true) by (destruct Hc as [->| ->]; reflexivity).
      rewrite bind_Done. cbn [negb].
      rewrite <- (string_app_empty_r ed) at 1.
      rewrite (parseExp_fits c sg ed "" Hc Hs Fe eq_refl), bind_Done.
      cbv iota beta. simpl. apply return_signed_value.
    + simpl. apply return_signed_value.
  - (* an exponent only *)
    destruct e as [[[c sg] ed]|]; [|now contradiction Hne].
    destruct He as (Hc & Hs & Fe). simpl.
    unfold strtod_frac_exp. autorewrite with go_eval.
    replace ((c =? ".")%char) with false
      by (destruct Hc as [->| ->]; reflexivity).
    replace (if (c =? "e")%char then Done true else Done (c =? "E")%char)
      with (Done true) by (destruct Hc as [->| ->]; reflexivity).
    rewrite bind_Done.
    rewrite <- (string_app_empty_r ed) at 1.
    rewrite (parseExp_fits c sg ed "" Hc Hs Fe eq_refl), bind_Done.
    cbv iota beta. simpl. apply return_signed_value.
Qed.

(** [strtod] behind its sign: what it does with the unsigned text. *)
Lemma strtod_sign (neg : bool) (d0 : ascii) (rest : string) :
  (d0 =? "-")%char = false ->
  strtod (minus neg ++ String d0 rest)
  = (let input := String d0 rest in
     let ret := f64_zero in
     let n := String.length input in
     if (n =? 0)%nat then Done (ret, "", Some IllegalInput)
     else
       zero1 <- andM (is_at input 0 "0") (Done (n =? 1)%nat) ;;
       if zero1 : bool then Done (ret, "", None)
       else
         zeroLead <- andM (is_at input 0 "0")
           (andM (Done (1 <? n)%nat)
              (b <- orM (is_at input 1 ".")
                     (orM (is_at input 1 "e") (is_at input 1 "E")) ;;
               Done (negb b))) ;;
         if zeroLead : bool then Done (ret, "", Some IllegalInput)
         else
           i0 <- index input 0 ;;
           if negb (isDigit i0) then Done (ret, "", Some IllegalInput)
           else
             '(input, integer, err) <- parseInteger input ;;
             match err with
             | Some e => Done (ret, "", Some e)
             | None =>
                 let n := String.length input in
                 if (n <=? 0)%nat
                 then return_signed neg (f64_of_int integer)
                 else strtod_frac_exp neg integer input
             end).
Proof.
  intros M. destruct neg; unfold strtod; simpl minus; simpl append;
    autorewrite with go_eval; [reflexivity|].
  rewrite M. now autorewrite with go_eval.
Qed.

Lemma strtod_int_value (neg : bool) (i tail : string) :
  fits i ->
  (i = "0" \/ stops (fun ch => (ch =? "0")%char) i = true) ->
  match tail with
  | EmptyString => True
  | String t0 _ => (t0 = "." \/ t0 = "e" \/ t0 = "E")%char
  end ->
  strtod (minus neg ++ i ++ tail)
  = match tail with
    | EmptyString =>
        if (i =? "0")%string then Done (f64_zero, "", None)
        else return_signed neg (f64_of_int (digits_value i))
    | _ => strtod_frac_exp neg (digits_value i) tail
    end.
Proof.
  intros F Hz Ht.
  destruct (digits1_first i (proj1 F)) as (d0 & ds & -> & Hd0 & Hds).
  assert (M : (d0 =? "-")%char = false) by now apply digit_differs.
  assert (St : stops isDigit tail = true).
  { destruct tail as [|t0 tr]; [reflexivity|].
    destruct Ht as [->|[->| ->]]; reflexivity. }
  pose proof (parseInteger_fits (String d0 ds) tail F St) as P.
  simpl append in P.
  change (minus neg ++ String d0 ds ++ tail)
    with (minus neg ++ String d0 (ds ++ tail)).
  rewrite (strtod_sign neg d0 (ds ++ tail) M). cbv zeta.
  simpl String.length. cbn [Nat.eqb]. autorewrite with go_eval.
  rewrite Hd0. cbn [negb]. rewrite P, bind_Done. cbv iota beta.
  destruct (Ascii.eqb_spec d0 "0") as [->|N0].
  - (* the integer part begins with a zero: it is that zero *)
    assert (ds = "") as ->.
    { destruct Hz as [Hz|Hz]; [now injection Hz | discriminate]. }
    simpl append. destruct tail as [|t0 tr].
    + reflexivity.
    + simpl String.length. cbn [Nat.eqb Nat.ltb Nat.leb].
      autorewrite with go_eval.
      replace (if (t0 =? ".")%char then Done true
               else if (t0 =? "e")%char then Done true
                    else Done (t0 =? "E")%char)
        with (Done true) by (destruct Ht as [->|[->| ->]]; reflexivity).
      now autorewrite with go_eval.
  - autorewrite with go_eval.
    destruct tail as [|t0 tr]; simpl String.length; cbn [Nat.leb].
    + replace ((String d0 ds =? "0")%string) with false; [reflexivity|].
      symmetry. apply String.eqb_neq. congruence.
    + reflexivity.
Qed.

Lemma strtod_value (np : number_parts) :
  number_wf np ->
  strtod (number_render np) = Done (number_value np, "", None).
Proof.
  destruct np as [neg i f e]. unfold number_wf, number_render, number_value.
  simpl. intros (Fi & Hz & Hf & He).
  rewrite (strtod_int_value neg i (frac_text f ++ exp_text e) Fi Hz).
  - destruct f as [fd|].
    + simpl frac_text. simpl append.
      now apply (strtod_frac_exp_value neg _ (Some fd) e).
    + destruct e as [[[c sg] ed]|].
      * simpl. now apply (strtod_frac_exp_value neg _ None (Some (c, sg, ed))).
      * simpl. destruct (i =? "0")%string; [reflexivity|].
        apply return_signed_value.
  - destruct f as [fd|]; [simpl; auto|].
    destruct e as [[[c sg] ed]|]; [|exact I].
    simpl. destruct He as ([->| ->] & _); auto.
Qed.

Lemma parseFrac_ok (input rest : string) (z : Z) :
  parseFrac input = Done (rest, z, None) ->
  exists fd, input = String "." (fd ++ rest) /\ fits fd.
Proof.
  destruct input as [|ch r]; [discriminate|].
  unfold parseFrac. simpl.
  destruct (Ascii.eqb_spec ch "."); [subst ch|discriminate].
  intros E. apply parseInteger_ok in E as (ds & -> & F & _). now exists ds.
Qed.

Lemma parseExp_ok (input rest : string) (x : Z) :
  parseExp input = Done (rest, x, None) ->
  exists c sg ed,
    input = String c (sg ++ ed ++ rest)
    /\ (c = "e" \/ c = "E")%char /\ (sg = "" \/ sg = "-" \/ sg = "+")
    /\ fits ed.
Proof.
  destruct input as [|e [|s1 r]]; [discriminate| |].
  - unfold parseExp, orM, is_at. simpl.
    destruct (e =? "e")%char; simpl; [discriminate|].
    destruct (e =? "E")%char; simpl; discriminate.
  - assert (He : (e =? "e")%char || (e =? "E")%char = true ->
                 (e = "e" \/ e = "E")%char).
    { destruct (Ascii.eqb_spec e "e"); [now left|].
      destruct (Ascii.eqb_spec e "E"); [now right | discriminate]. }
    assert (E : orM (is_at (String e (String s1 r)) 0 "e")
                  (is_at (String e (String s1 r)) 0 "E")
                = Done ((e =? "e")%char || (e =? "E")%char)).
    { unfold orM, is_at. simpl. now destruct (e =? "e")%char. }
    unfold parseExp. rewrite E. simpl bind at 1.
    destruct ((e =? "e")%char || (e =? "E")%char); [|discriminate].
    specialize (He eq_refl). unfold orM, is_at. simpl.
    destruct (Ascii.eqb_spec s1 "-") as [->|N1]; simpl.
    + destruct (parseInteger r) as [[[r1 x1] [err|]]|] eqn:P; simpl;
        try discriminate.
      apply parseInteger_ok in P as (ds & P & F & _).
      intros R; injection R as <- _.
      exists e, "-", ds. simpl. rewrite P. auto 10.
    + destruct (Ascii.eqb_spec s1 "+") as [->|N2]; simpl.
      * destruct (parseInteger r) as [[[r1 x1] [err|]]|] eqn:P; simpl;
          try discriminate.
        apply parseInteger_ok in P as (ds & P & F & _).
        intros R; injection R as <- _.
        exists e, "+", ds. simpl. rewrite P. auto 10.
      * destruct (parseInteger (String s1 r)) as [[[r1 x1] [err|]]|] eqn:P;
          simpl; try discriminate.
        apply parseInteger_ok in P as (ds & P & F & _).
        intros R; injection R as <- _.
        exists e, "", ds. simpl. rewrite <- P. auto 10.
Qed.

Lemma strtod_frac_exp_sound (neg : bool) (z : Z) (input : string) :
  post (fun '(_, _, err) =>
          err = None ->
          exists f e,
            input = frac_text f ++ exp_text e
            /\ match f with Some fd => fits fd | None => True end
            /\ match e with
               | Some (c, sg, ed) =>
                   (c = "e" \/ c = "E")%char
                   /\ (sg = "" \/ sg = "-" \/ sg = "+") /\ fits ed
               | None => True
               end)
    (strtod_frac_exp neg z input).
Proof.
  unfold strtod_frac_exp.
  repeat post_step; intros; try discriminate.
  all: repeat match goal with
         | H : parseFrac _ = Done (_, _, None) |- _ =>
             apply parseFrac_ok in H as (?fd & ?Ef & ?Ff)
         | H : parseExp _ = Done (_, _, None) |- _ =>
             apply parseExp_ok in H as (?c & ?sg & ?ed & ?Ee & ?Hc & ?Hs & ?Fe)
         | H : (String.length _ =? 0)%nat = true |- _ =>
             apply length_zero in H
         | H : negb (String.length _ =? 0)%nat = false |- _ =>
             apply negb_false_iff, length_zero in H
         end; subst.
  - exists (Some fd), None. simpl. now rewrite !string_app_empty_r.
  - exists (Some fd), None. simpl. now rewrite !string_app_empty_r.
  - exists (Some fd), (Some (c, sg, ed)). simpl.
    rewrite !string_app_empty_r. auto.
  - exists (Some fd), (Some (c, sg, ed)). simpl.
    rewrite !string_app_empty_r. auto.
  - exists None, (Some (c, sg, ed)). simpl.
    rewrite !string_app_empty_r. auto.
  - exists None, (Some (c, sg, ed)). simpl.
    rewrite !string_app_empty_r. auto.
Qed.

Lemma sign_and_body (t : string) :
  t = minus (has_minus t) ++ unsigned t.
Proof.
  destruct t as [|ch r]; [reflexivity|].
  unfold unsigned, has_minus.
  destruct (Ascii.eqb_spec ch "-") as [->|N]; reflexivity.
Qed.

Lemma no_leading_zero (t ds rest : string) (r : float64 * string) :
  strtod t = Done (r, None) ->
  unsigned t = ds ++ rest -> digits1 ds ->
  ds = "0" \/ stops (fun ch => (ch =? "0")%char) ds = true.
Proof.
  intros E U D.
  destruct (digits1_first ds D) as (d0 & ds' & -> & Hd0 & Hds).
  simpl. destruct (Ascii.eqb_spec d0 "0") as [->|N]; [|now right].
  destruct ds' as [|d1 ds'']; [now left|]. exfalso.
  simpl in Hds. apply andb_true_iff in Hds as [Hd1 _].
  destruct (leading_zero (has_minus t) d1 (ds'' ++ rest) Hd1) as (x & e & F).
  rewrite (sign_and_body t), U in E. simpl in E, F. rewrite F in E.
  discriminate.
Qed.

Lemma strtod_sound (t : string) (x : float64) (e : string) :
  strtod t = Done (x, e, None) ->
  exists np, number_wf np /\ t = number_render np.
Proof.
  intros E. pose proof (strtod_cases t _ E) as C. cbv zeta in C.
  destruct C as [(x' & e' & C) | [[B C] | [(z & P & C) | (z & rest & P & N & C)]]].
  - discriminate.
  - exists (mkNumberParts (has_minus t) "0" None None). split.
    + repeat split; simpl; auto; discriminate.
    + unfold number_render. simpl. rewrite <- B. apply sign_and_body.
  - apply parseInteger_ok in P as (ds & U & F & _).
    exists (mkNumberParts (has_minus t) ds None None). split.
    + repeat split; simpl; try apply F.
      apply (no_leading_zero t ds "" _ E U (proj1 F)).
    + unfold number_render. simpl. rewrite <- U. apply sign_and_body.
  - apply parseInteger_ok in P as (ds & U & F & _).
    pose proof (strtod_frac_exp_sound _ _ _ _ C eq_refl) as (f & ex & -> & Hf & He).
    exists (mkNumberParts (has_minus t) ds f ex). split.
    + repeat split; simpl; try apply F; try assumption.
      apply (no_leading_zero t ds _ _ E U (proj1 F)).
    + unfold number_render. simpl. rewrite <- U. apply sign_and_body.
Qed.

Lemma LeptParse_number_ok (v : LeptValue) (ws : string) (np : number_parts) :
  all_bytes isSpace ws = true -> number_wf np ->
  LeptParse (Some v) (ws ++ number_render np)
  = Done (LeptParseOK, set_typ (set_n v (number_value np)) LeptNUMBER).
Proof.
  intros Hws W.
  pose proof (strtod_value np W) as S.
  assert (St : number_start (number_render np) = true).
  { destruct np as [neg i f e]. destruct W as (F & _).
    exact (number_start_signed neg i _ (proj1 F)). }
  destruct (number_render np) as [|c0 r] eqn:R; [discriminate|].
  simpl in St.
  assert (N : (c0 =? "n")%char = false /\ (c0 =? "t")%char = false
              /\ (c0 =? "f")%char = false
              /\ (c0 =? quotation_mark)%char = false /\ isSpace c0 = false).
  { repeat split; try apply Ascii.eqb_neq; try intros ->; try discriminate.
    unfold isSpace.
    repeat match goal with
           | |- context [(c0 =? ?k)%char] =>
               destruct (Ascii.eqb_spec c0 k); [subst c0; discriminate|]
           end.
    reflexivity. }
  destruct N as (N1 & N2 & N3 & N4 & N5).
  apply (LeptParse_from_value v _ ws _ ""); try easy.
  - simpl. now rewrite N5.
  - unfold LeptParseValue. simpl. rewrite N1, N2, N3, N4.
    unfold LeptParseNumber. simpl json. rewrite S. reflexivity.
Qed.

(** X8.  The entry parse returns OK with the tag LeptNUMBER exactly on
    the inputs that are white space followed by a number of the grammar
    [ "-" ] int [ frac ] [ exp ] with every run of digits in the range of
    int, and nothing after it, white space neither; the number of the
    value is then float64(int) plus float64 of the fraction digits over
    float64 of the int power of ten, times Pow10 of the exponent,
    negated after a minus sign (the single zero keeps no sign). *)
Theorem number_acceptance (v v' : LeptValue) (text : string) :
  LeptParse (Some v) text = Done (LeptParseOK, v') /\ typ v' = LeptNUMBER
  <-> exists ws np,
        text = ws ++ number_render np
        /\ all_bytes isSpace ws = true
        /\ number_wf np
        /\ v' = set_typ (set_n v (number_value np)) LeptNUMBER.
Proof.
  split.
  - intros [E T].
    apply LeptParse_ok in E as (ws & body & c1 & -> & Hws & E & Hc).
    apply LeptParseValue_ok in E.
    destruct E as [[J ->]|[[J ->]|[[J ->]|[(p & w & J & B & ->)
                                          |[J (x & S & ->)]]]]];
      try discriminate.
    simpl in S. destruct (strtod_sound _ _ _ S) as (np & W & ->).
    rewrite (strtod_value np W) in S. injection S as <-.
    now exists ws, np.
  - intros (ws & np & -> & Hws & W & ->). split; [|reflexivity].
    now apply LeptParse_number_ok.
Qed.

(** ** Digit runs that are no [int] *)

(** X9.  parseInteger reads the longest run of digits at the front of
    its input: without a digit it fails with a syntax error, with digits
    whose value is above the largest int it fails with a range error,
    and otherwise it returns their value and the input after them. *)
Theorem parseInteger_spec (ds t : string) :
  all_bytes isDigit ds = true -> stops isDigit t = true ->
  parseInteger (ds ++ t)
  = if (ds =? "")%string then Done ("", 0, Some ErrSyntax)
    else if MaxInt <? digits_value ds then Done ("", 0, Some ErrRange)
    else Done (t, digits_value ds, None).
Proof.
  intros D Ht. rewrite parseInteger_app by assumption.
  destruct ds as [|d0 r]; [reflexivity|].
  rewrite Atoi_digits by (split; [discriminate | exact D]).
  simpl String.eqb. now destruct (MaxInt <? _).
Qed.

Lemma parseInteger_spec_witness :
  parseInteger ("9223372036854775808" ++ "x") = Done ("", 0, Some ErrRange)
  /\ parseInteger ("9223372036854775807" ++ ".5")
     = Done (".5", MaxInt, None).
Proof.
  split.
  - exact (parseInteger_spec "9223372036854775808" "x" eq_refl eq_refl).
  - exact (parseInteger_spec "9223372036854775807" ".5" eq_refl eq_refl).
Defined.

Lemma strtod_int_too_big (neg : bool) (i tail : string) :
  digits1 i -> MaxInt < digits_value i -> stops isDigit tail = true ->
  fails (strtod (minus neg ++ i ++ tail)).
Proof.
  intros D Big St.
  destruct (digits1_first i D) as (d0 & ds & -> & Hd0 & Hds).
  assert (M : (d0 =? "-")%char = false) by now apply digit_differs.
  set (input := minus neg ++ String d0 ds ++ tail).
  assert (Hneg : has_minus input = neg)
    by (destruct neg; simpl; [reflexivity | exact M]).
  assert (Hbody : unsigned input = String d0 ds ++ tail).
  { unfold unsigned. rewrite Hneg. now destruct neg. }
  destruct (returns_strtod input) as [r E].
  { now destruct neg. }
  pose proof (strtod_cases input r E) as C. cbv zeta in C.
  rewrite Hneg, Hbody in C.
  rewrite parseInteger_app in C by (destruct D; assumption).
  rewrite (Atoi_digits _ D) in C.
  apply Z.ltb_lt in Big. rewrite Big in C.
  destruct C as [(x & e & ->) | [[B _] | [(z & P & _) | (z & rest & P & _)]]];
    try discriminate.
  - rewrite E. now exists x, e.
  - exfalso. injection B as -> B. destruct ds; [|discriminate].
    vm_compute in Big. discriminate.
Qed.

(** X10.  An integer part whose digits are worth more than the largest
    int makes the entry parse return InvalidValue, whatever follows the
    digits and also behind a minus sign (so the text of the smallest int
    is rejected). *)
Theorem integer_part_too_big (v : LeptValue) (neg : bool) (i tail : string) :
  digits1 i -> MaxInt < digits_value i -> stops isDigit tail = true ->
  invalid_value v (minus neg ++ i ++ tail).
Proof.
  intros D Big St. apply LeptParse_number_fails.
  - now apply number_start_signed.
  - now apply strtod_int_too_big.
Qed.

Lemma integer_part_too_big_witness :
  invalid_value NewLeptValue (minus true ++ "9223372036854775808" ++ "").
Proof.
  apply integer_part_too_big.
  - split; [discriminate | reflexivity].
  - reflexivity.
  - reflexivity.
Defined.

(** ** The divisor of the fraction *)

Lemma wrap_small (z : Z) : MinInt <= z <= MaxInt -> wrap z = z.
Proof.
  unfold wrap, MinInt, MaxInt, intSize. intros H.
  rewrite Z.mod_small; lia.
Qed.

Lemma wrap_mul (a b : Z) : wrap (wrap a * b) = wrap (a * b).
Proof.
  unfold wrap. set (M := 2 ^ intSize). set (H := 2 ^ (intSize - 1)).
  f_equal.
  replace (((a + H) mod M - H) * b + H)
    with ((a + H) mod M * b + (H - H * b)) by ring.
  rewrite <- Z.add_mod_idemp_l by (unfold M, intSize; lia).
  rewrite Z.mul_mod_idemp_l by (unfold M, intSize; lia).
  rewrite Z.add_mod_idemp_l by (unfold M, intSize; lia).
  f_equal. ring.
Qed.

Lemma frac_loop_pow (k : nat) : frac_loop k 0 1 = wrap (10 ^ Z.of_nat k).
Proof.
  unfold frac_loop. rewrite Nat.sub_0_r.
  induction k as [|k IH].
  - reflexivity.
  - rewrite Nat2Z.inj_succ, Z.pow_succ_r by lia. simpl Nat.iter.
    rewrite IH, wrap_mul. f_equal. ring.
Qed.

(** X11.  The divisor of the fraction, computed by the loop of strtod in
    an int, is ten to the number of fraction digits reduced to 64 bits:
    it is that power for up to 18 digits, it is negative for 19 digits,
    and it is zero for 64 digits or more. *)
Theorem frac_divisor (k : nat) :
  frac_loop k 0 1 = wrap (10 ^ Z.of_nat k)
  /\ ((k <= 18)%nat -> frac_loop k 0 1 = 10 ^ Z.of_nat k)
  /\ ((64 <= k)%nat -> frac_loop k 0 1 = 0)
  /\ frac_loop 19 0 1 < 0.
Proof.
  split; [apply frac_loop_pow|]. split; [|split].
  - intros H. rewrite frac_loop_pow. apply wrap_small.
    assert (0 < 10 ^ Z.of_nat k) by (apply Z.pow_pos_nonneg; lia).
    assert (10 ^ Z.of_nat k <= 10 ^ 18)
      by (apply Z.pow_le_mono_r; lia).
    unfold MinInt, MaxInt, intSize. lia.
  - intros H. rewrite frac_loop_pow.
    replace (Z.of_nat k) with (64 + (Z.of_nat k - 64)) by lia.
    rewrite Z.pow_add_r by lia.
    unfold wrap, intSize.
    rewrite <- Z.add_mod_idemp_l by lia.
    rewrite <- Z.mul_mod_idemp_l by lia.
    replace (10 ^ 64 mod 2 ^ 64) with 0 by (vm_compute; reflexivity).
    reflexivity.
  - vm_compute. reflexivity.
Qed.

Lemma frac_divisor_witness :
  frac_loop 18 0 1 = 10 ^ 18 /\ frac_loop 70 0 1 = 0.
Proof.
  split.
  - apply (proj1 (proj2 (frac_divisor 18))). lia.
  - apply (proj1 (proj2 (proj2 (frac_divisor 70)))). lia.
Defined.

Lemma digits_zeros (fd : string) :
  all_bytes (fun ch => (ch =? "0")%char) fd = true -> digits_value fd = 0.
Proof.
  unfold digits_value. intros H.
  assert (E : strconv.digits fd 0 = Some 0).
  { induction fd as [|ch r IH]; [reflexivity|].
    simpl in H. apply andb_true_iff in H as [H1 H2].
    apply Ascii.eqb_eq in H1. subst ch. simpl. now apply IH. }
  now rewrite E.
Qed.

(** X12.  A number with a fraction of 64 or more digits that are all
    zero is parsed with the result OK to a NaN: the fraction is zero
    divided by the zero that the divisor has wrapped around to. *)
Theorem long_zero_fraction_is_nan (v : LeptValue) (ws : string)
  (np : number_parts) (fd : string) :
  all_bytes isSpace ws = true -> number_wf np -> np_frac np = Some fd ->
  all_bytes (fun ch => (ch =? "0")%char) fd = true ->
  (64 <= String.length fd)%nat ->
  LeptParse (Some v) (ws ++ number_render np)
  = Done (LeptParseOK, set_typ (set_n v S754_nan) LeptNUMBER).
Proof.
  intros Hws W Ef Z0 L.
  rewrite (LeptParse_number_ok v ws np Hws W). repeat f_equal.
  destruct np as [neg i f e]. simpl in Ef. subst f.
  unfold number_value, frac_exp_value. simpl.
  rewrite (digits_zeros fd Z0).
  replace (frac_loop (String.length fd) 0 1) with 0.
  2:{ symmetry. rewrite frac_loop_pow.
      replace (Z.of_nat (String.length fd))
        with (64 + (Z.of_nat (String.length fd) - 64)) by lia.
      rewrite Z.pow_add_r by lia.
      unfold wrap, intSize.
      rewrite <- Z.add_mod_idemp_l by lia.
      rewrite <- Z.mul_mod_idemp_l by lia.
      replace (10 ^ 64 mod 2 ^ 64) with 0 by (vm_compute; reflexivity).
      reflexivity. }
  change (f64_div (f64_of_int 0) (f64_of_int 0)) with S754_nan.
  assert (A : forall x, f64_add x S754_nan = S754_nan) by now intros [].
  assert (M : forall y, f64_mul S754_nan y = S754_nan) by now intros [].
  rewrite A. destruct e as [[[c sg] ed]|]; [rewrite M|]; now destruct neg.
Qed.

Lemma long_zero_fraction_is_nan_witness :
  let zeros := "0000000000000000000000000000000000000000000000000000000000000000" in
  LeptParse (Some NewLeptValue)
    ("" ++ number_render (mkNumberParts false "1" (Some zeros) None))
  = Done (LeptParseOK, set_typ (set_n NewLeptValue S754_nan) LeptNUMBER).
Proof.
  intros zeros.
  apply (long_zero_fraction_is_nan NewLeptValue ""
           (mkNumberParts false "1" (Some zeros) None) zeros).
  - reflexivity.
  - repeat split; simpl; try discriminate; try reflexivity; auto.
  - reflexivity.
  - reflexivity.
  - vm_compute. lia.
Defined.

(** ** Trailing text *)

(** X13.  When the entry parse returns RootNotSingular, the value it
    leaves is the result of parsing a prefix of the input that is
    followed by something other than white space; that value is never a
    number. *)
Theorem root_not_singular_prefix (v v' : LeptValue) (text : string) :
  LeptParse (Some v) text = Done (LeptParseRootNotSingular, v') ->
  typ v' <> LeptNUMBER
  /\ exists pre rest,
       text = pre ++ rest /\ all_bytes isSpace rest = false
       /\ LeptParse (Some v) pre = Done (LeptParseOK, v').
Proof.
  destruct (whitespace_split text) as (ws & body & -> & Hws & Hbody).
  rewrite LeptParse_steps by assumption.
  destruct (LeptParseValue _ _) as [[[r c1] v1]|p] eqn:E; [|discriminate].
  simpl. destruct (Z.eqb_spec r LeptParseOK) as [->|N]; simpl.
  - destruct (all_bytes isSpace (json c1)) eqn:S; [discriminate|].
    intros R. injection R as <-.
    apply LeptParseValue_ok in E.
    destruct E as [[J ->]|[[J ->]|[[J ->]|[(p & w & J & B & ->)
                                          |[J (x & _ & ->)]]]]];
      simpl in J.
    + split; [discriminate|]. exists (ws ++ "null"), (json c1).
      rewrite J, string_app_assoc. repeat split; [exact S|].
      now apply (LeptParse_from_value v _ ws "null" "").
    + split; [discriminate|]. exists (ws ++ "true"), (json c1).
      rewrite J, string_app_assoc. repeat split; [exact S|].
      now apply (LeptParse_from_value v _ ws "true" "").
    + split; [discriminate|]. exists (ws ++ "false"), (json c1).
      rewrite J, string_app_assoc. repeat split; [exact S|].
      now apply (LeptParse_from_value v _ ws "false" "").
    + split; [discriminate|].
      exists (ws ++ String quotation_mark (p ++ String quotation_mark "")),
             (json c1).
      rewrite J. repeat split; [| exact S |].
      * rewrite string_app_assoc. simpl. now rewrite string_app_assoc.
      * apply (LeptParse_from_value v _ ws _ ""); try easy.
        exact (string_body_closed (set_typ v LeptNULL) p w "" B).
    + rewrite J in S. discriminate.
  - intros R. injection R as -> _.
    apply LeptParseValue_codes in E. unfold code_result in E. simpl in E.
    exfalso. codes.
    destruct body as [|ch b]; [lia|].
    destruct (ch =? quotation_mark)%char; lia.
Qed.

Lemma root_not_singular_prefix_witness :
  exists pre rest,
    "false true" = pre ++ rest /\ all_bytes isSpace rest = false
    /\ LeptParse (Some NewLeptValue) pre
       = Done (LeptParseOK, set_typ NewLeptValue LeptFALSE).
Proof.
  apply (root_not_singular_prefix NewLeptValue
           (set_typ NewLeptValue LeptFALSE) "false true" eq_refl).
Defined.


(** ** The merged literal parser, for every literal *)

Lemma index_app_length (pc : string) (b : ascii) (r : string) :
  index (pc ++ String b r) (String.length pc) = Done b.
Proof. induction pc as [|ch pc IH]; [reflexivity | exact IH]. Qed.

Lemma literal_mismatch_starts (lit : string) :
  forall (i : nat) (pc pl tail : string),
    String.length pc = i -> String.length pl = S i ->
    (String.length lit <= String.length tail)%nat ->
    literal_mismatch {| json := pc ++ tail |} (pl ++ lit) i (String.length lit)
    = Done (negb (starts lit tail)).
Proof.
  induction lit as [|a lit IH]; intros i pc pl tail Hpc Hpl Hlen.
  - reflexivity.
  - destruct tail as [|b tail]; [simpl in Hlen; lia|].
    simpl String.length. simpl literal_mismatch. simpl json.
    rewrite <- Hpc at 1. rewrite index_app_length, bind_Done.
    replace (i + 1)%nat with (String.length pl) by lia.
    rewrite index_app_length, bind_Done. simpl starts.
    destruct (b =? a)%char; [|reflexivity]. simpl.
    replace (pc ++ String b tail) with ((pc ++ String b "") ++ tail)
      by (now rewrite string_app_assoc).
    replace (pl ++ String a lit) with ((pl ++ String a "") ++ lit)
      by (now rewrite string_app_assoc).
    apply IH.
    + rewrite string_length_app. simpl. lia.
    + rewrite string_length_app. simpl. lia.
    + simpl in Hlen. lia.
Qed.

Lemma starts_short (lit t : string) :
  (String.length t < String.length lit)%nat -> starts lit t = false.
Proof.
  revert t. induction lit as [|a lit IH]; intros [|b t] H; simpl in *;
    try lia; try reflexivity.
  rewrite IH by lia. apply andb_false_r.
Qed.

Lemma starts_app (lit t : string) :
  starts lit t = true <-> exists rest, t = lit ++ rest.
Proof.
  revert t. induction lit as [|a lit IH]; intros t; simpl.
  - split; [now exists t | reflexivity].
  - destruct t as [|b t].
    + split; [discriminate | intros [rest E]; discriminate].
    + rewrite andb_true_iff, IH, Ascii.eqb_eq. split.
      * intros [-> [rest ->]]. now exists rest.
      * intros [rest E]. injection E as -> ->. split; [reflexivity|].
        now exists rest.
Qed.

Lemma LeptParseLiteral_value (v : LeptValue) (l0 : ascii) (lit tail : string)
  (t : LeptType) :
  LeptParseLiteral {| json := String l0 tail |} v (String l0 lit) t
  = if starts lit tail
    then Done (LeptParseOK, {| json := drop (String.length lit) tail |},
               set_typ v t)
    else Done (LeptParseInvalidValue, {| json := tail |}, v).
Proof.
  unfold LeptParseLiteral. rewrite index_first, bind_Done, expect_first,
    bind_Done. simpl json. cbv zeta.
  replace (String.length (String l0 lit) - 1)%nat with (String.length lit)
    by (simpl; lia).
  destruct (Nat.ltb_spec (String.length tail) (String.length lit)) as [L|L].
  - now rewrite starts_short.
  - pose proof (literal_mismatch_starts lit 0 "" (String l0 "") tail
                  eq_refl eq_refl L) as M.
    simpl append in M. rewrite M, bind_Done.
    destruct (starts lit tail); simpl; [|reflexivity].
    now rewrite slice_from_le.
Qed.

(** X14.  The merged literal parser, for every literal of one byte or
    more: on an input that begins with the literal it sets the tag and
    leaves the cursor behind the literal; on an input that begins with
    the literal's first byte but not with the literal it returns
    InvalidValue, having consumed that byte only; it panics on an empty
    literal, on an empty input and on another first byte. *)
Theorem LeptParseLiteral_spec (v : LeptValue) (l0 : ascii)
  (lit tail : string) (t : LeptType) :
  (forall rest,
      LeptParseLiteral {| json := String l0 (lit ++ rest) |} v (String l0 lit) t
      = Done (LeptParseOK, {| json := rest |}, set_typ v t))
  /\ ((forall rest, tail <> lit ++ rest) ->
      LeptParseLiteral {| json := String l0 tail |} v (String l0 lit) t
      = Done (LeptParseInvalidValue, {| json := tail |}, v))
  /\ (forall c, LeptParseLiteral c v "" t = Panicked IndexOutOfRange)
  /\ LeptParseLiteral {| json := "" |} v (String l0 lit) t
     = Panicked ErrReachEnd
  /\ (forall ch, ch <> l0 ->
        LeptParseLiteral {| json := String ch tail |} v (String l0 lit) t
        = Panicked ErrUnexpectChar).
Proof.
  repeat split.
  - intros rest. rewrite LeptParseLiteral_value.
    replace (starts lit (lit ++ rest)) with true
      by (symmetry; apply starts_app; now exists rest).
    now rewrite drop_app.
  - intros H. rewrite LeptParseLiteral_value.
    destruct (starts lit tail) eqn:S; [|reflexivity].
    apply starts_app in S as [rest E]. now destruct (H rest).
  - intros ch N. unfold LeptParseLiteral, expect. simpl.
    destruct (Ascii.eqb_spec ch l0); [contradiction | reflexivity].
Qed.

Lemma LeptParseLiteral_spec_witness :
  LeptParseLiteral {| json := String "n" "il" |} NewLeptValue (String "n" "ull")
    LeptNULL
  = Done (LeptParseInvalidValue, {| json := "il" |}, NewLeptValue)
  /\ LeptParseLiteral {| json := String "x" "il" |} NewLeptValue
       (String "n" "ull") LeptNULL
     = Panicked ErrUnexpectChar.
Proof.
  split.
  - apply (proj1 (proj2 (LeptParseLiteral_spec NewLeptValue "n" "ull" "il"
                           LeptNULL))).
    intros [|a [|b r]]; discriminate.
  - apply (proj2 (proj2 (proj2 (proj2
      (LeptParseLiteral_spec NewLeptValue "n" "ull" "il" LeptNULL))))).
    discriminate.
Defined.

(** ** Reading the value after a parse *)

Ltac failure_leaf :=
  simpl; intros; try congruence; try (split; reflexivity).

Lemma string_loop_failure (c : LeptContext) (v : LeptValue) (rest : string) :
  (forall stack, post (failure_result v) (string_loop c v rest stack))
  /\ (forall ch stack,
        post (failure_result v) (string_loop c v (String ch rest) stack)).
Proof.
  induction rest as [|e rest [IH1 IH2]].
  - split; [intros; apply post_Done; failure_leaf|].
    intros ch stack. simpl. repeat post_step; failure_leaf.
  - split; [exact (IH2 e)|].
    intros ch stack.
    change (string_loop c v (String ch (String e rest)) stack)
      with (if (ch =? quotation_mark)%char
            then Done (LeptParseOK, {| json := String e rest |},
                       set_typ (set_s v stack) LeptSTRING)
            else if (ch =? reverse_solidus)%char
            then match escape e with
                 | Some w => string_loop c v rest (stack ++ w)
                 | None => Done (LeptParseInvalidStringEscape, c, v)
                 end
            else if byte_val ch <? 32
            then Done (LeptParseInvalidStringChar, c, v)
            else string_loop c v (String e rest) (stack ++ String ch "")).
    repeat post_step; try apply IH1; try apply IH2; failure_leaf.
Qed.

Lemma LeptParseValue_failure (c : LeptContext) (v : LeptValue) :
  post (failure_result v) (LeptParseValue c v).
Proof.
  unfold LeptParseValue. repeat post_step.
  - failure_leaf.
  - unfold LeptParseNull. repeat post_step; failure_leaf.
  - unfold LeptParseTrue. repeat post_step; failure_leaf.
  - unfold LeptParseFalse. repeat post_step; failure_leaf.
  - unfold LeptParseString. apply post_bind. intros c1 _.
    apply string_loop_failure.
  - unfold LeptParseNumber. repeat post_step; failure_leaf.
Qed.

(** X15.  After a parse that failed with a result other than
    RootNotSingular the value has the tag LeptNULL and the string it had
    before, and the getters of a number, a string, a string length and a
    boolean panic on it. *)
Theorem failed_parse_reads (v v' : LeptValue) (text : string) (ret : Z) :
  LeptParse (Some v) text = Done (ret, v') ->
  ret <> LeptParseOK -> ret <> LeptParseRootNotSingular ->
  s v' = s v
  /\ LeptGetType (Some v') = Done LeptNULL
  /\ LeptGetNumber (Some v') = Panicked WrongType
  /\ LeptGetString (Some v') = Panicked WrongType
  /\ LeptGetStringLength (Some v') = Panicked WrongType
  /\ LeptGetBoolean (Some v') = Panicked WrongType.
Proof.
  destruct (whitespace_split text) as (ws & body & -> & Hws & Hbody).
  rewrite LeptParse_steps by assumption.
  destruct (LeptParseValue _ _) as [[[r c1] v1]|p] eqn:E; [|discriminate].
  apply LeptParseValue_failure in E. simpl in E.
  simpl. destruct (Z.eqb_spec r LeptParseOK) as [->|N]; simpl.
  - destruct (all_bytes isSpace (json c1)); intros R; injection R as <- <-;
      contradiction.
  - intros R _ _. injection R as <- <-. destruct (E N) as [T S].
    unfold LeptGetType, LeptGetNumber, LeptGetString, LeptGetStringLength,
      LeptGetBoolean. rewrite T. now repeat split.
Qed.

Lemma failed_parse_reads_witness :
  LeptGetType
    (Some (set_n (set_typ (set_typ (set_s NewLeptValue "old") LeptSTRING)
                    LeptNULL) (f64_of_int 1)))
  = Done LeptNULL.
Proof.
  apply (failed_parse_reads
           (set_typ (set_s NewLeptValue "old") LeptSTRING) _ "1x"
           LeptParseInvalidValue eq_refl);
    discriminate.
Defined.

(** X16.  The accessors: a getter called after the matching setter
    returns what was set (a boolean as 0 or 1, a string also as its
    length, and LeptGetType the tag of the setter); each of the four
    typed getters panics after every setter of another type, twelve
    pairs in all; and every accessor panics on nil. *)
Theorem accessors_round_trip (v : LeptValue) (x : float64) (str : string)
  (b : Z) :
  (* the matching pairs *)
  ((v1 <- LeptSetNumber (Some v) x ;; LeptGetNumber (Some v1)) = Done x
   /\ (v1 <- LeptSetString (Some v) str ;; LeptGetString (Some v1))
      = Done str
   /\ (v1 <- LeptSetString (Some v) str ;; LeptGetStringLength (Some v1))
      = Done (Z.of_nat (String.length str))
   /\ (v1 <- LeptSetBoolean (Some v) b ;; LeptGetBoolean (Some v1))
      = Done (if b =? 0 then 0 else 1))
  (* the tag after a setter *)
  /\ ((v1 <- LeptSetNull (Some v) ;; LeptGetType (Some v1)) = Done LeptNULL
      /\ (v1 <- LeptSetNumber (Some v) x ;; LeptGetType (Some v1))
         = Done LeptNUMBER
      /\ (v1 <- LeptSetString (Some v) str ;; LeptGetType (Some v1))
         = Done LeptSTRING
      /\ (v1 <- LeptSetBoolean (Some v) b ;; LeptGetType (Some v1))
         = Done (if b =? 0 then LeptFALSE else LeptTRUE))
  (* after LeptSetNull *)
  /\ ((v1 <- LeptSetNull (Some v) ;; LeptGetNumber (Some v1))
      = Panicked WrongType
      /\ (v1 <- LeptSetNull (Some v) ;; LeptGetBoolean (Some v1))
         = Panicked WrongType
      /\ (v1 <- LeptSetNull (Some v) ;; LeptGetString (Some v1))
         = Panicked WrongType
      /\ (v1 <- LeptSetNull (Some v) ;; LeptGetStringLength (Some v1))
         = Panicked WrongType)
  (* after LeptSetNumber *)
  /\ ((v1 <- LeptSetNumber (Some v) x ;; LeptGetBoolean (Some v1))
      = Panicked WrongType
      /\ (v1 <- LeptSetNumber (Some v) x ;; LeptGetString (Some v1))
         = Panicked WrongType
      /\ (v1 <- LeptSetNumber (Some v) x ;; LeptGetStringLength (Some v1))
         = Panicked WrongType)
  (* after LeptSetBoolean *)
  /\ ((v1 <- LeptSetBoolean (Some v) b ;; LeptGetNumber (Some v1))
      = Panicked WrongType
      /\ (v1 <- LeptSetBoolean (Some v) b ;; LeptGetString (Some v1))
         = Panicked WrongType
      /\ (v1 <- LeptSetBoolean (Some v) b ;; LeptGetStringLength (Some v1))
         = Panicked WrongType)
  (* after LeptSetString *)
  /\ ((v1 <- LeptSetString (Some v) str ;; LeptGetNumber (Some v1))
      = Panicked WrongType
      /\ (v1 <- LeptSetString (Some v) str ;; LeptGetBoolean (Some v1))
         = Panicked WrongType)
  (* nil *)
  /\ (LeptSetNumber None x = Panicked NilValue
      /\ LeptSetString None str = Panicked NilValue
      /\ LeptSetBoolean None b = Panicked NilValue
      /\ LeptSetNull None = Panicked NilValue
      /\ LeptGetType None = Panicked NilValue
      /\ LeptGetNumber None = Panicked NilValue
      /\ LeptGetString None = Panicked NilValue
      /\ LeptGetStringLength None = Panicked NilValue
      /\ LeptGetBoolean None = Panicked NilValue).
Proof.
  repeat split; simpl; try reflexivity; now destruct (b =? 0).
Qed.

(** ** What is left of the input *)

Lemma expect_inv (c c1 : LeptContext) (ch : ascii) :
  expect c ch = Done c1 -> json c = String ch (json c1).
Proof.
  unfold expect. destruct (json c) as [|a r]; simpl; [discriminate|].
  destruct (Ascii.eqb_spec a ch) as [->|N]; simpl; [|discriminate].
  intros E. now injection E as <-.
Qed.

Lemma slice_from_inv (t j : string) (i : nat) :
  slice_from t i = Done j -> t = take i t ++ j.
Proof.
  unfold slice_from. destruct (i <=? String.length t)%nat; [|discriminate].
  intros E. injection E as <-. now rewrite take_drop.
Qed.

Ltac consumed :=
  simpl;
  repeat match goal with
         | H : expect _ _ = Done _ |- _ => apply expect_inv in H
         | H : slice_from _ _ = Done _ |- _ => apply slice_from_inv in H
         end;
  match goal with
  | H1 : json ?c = String ?ch (json ?a), H2 : json ?a = ?p ++ ?j
    |- exists pre, json ?c = pre ++ ?j =>
      exists (String ch p); rewrite H1; simpl; f_equal; exact H2
  | H1 : json ?c = String ?ch (json ?a)
    |- exists pre, json ?c = pre ++ json ?a =>
      exists (String ch ""); exact H1
  end.

Lemma LeptParseNull_consumes (c : LeptContext) (v : LeptValue) :
  post (consumes c) (LeptParseNull c v).
Proof. unfold LeptParseNull. repeat post_step; consumed. Qed.

Lemma LeptParseTrue_consumes (c : LeptContext) (v : LeptValue) :
  post (consumes c) (LeptParseTrue c v).
Proof. unfold LeptParseTrue. repeat post_step; consumed. Qed.

Lemma LeptParseFalse_consumes (c : LeptContext) (v : LeptValue) :
  post (consumes c) (LeptParseFalse c v).
Proof. unfold LeptParseFalse. repeat post_step; consumed. Qed.

Lemma string_loop_consumes (c : LeptContext) (v : LeptValue) (rest : string) :
  (forall stack,
      post (fun '(_, c', _) => c' = c \/ exists pre, rest = pre ++ json c')
        (string_loop c v rest stack))
  /\ (forall ch stack,
        post (fun '(_, c', _) =>
                c' = c \/ exists pre, String ch rest = pre ++ json c')
          (string_loop c v (String ch rest) stack)).
Proof.
  induction rest as [|e rest [IH1 IH2]].
  - split; [intros; apply post_Done; now left|].
    intros ch stack. simpl. repeat post_step; simpl; auto.
    right. now exists (String ch "").
  - split; [exact (IH2 e)|].
    intros ch stack.
    change (string_loop c v (String ch (String e rest)) stack)
      with (if (ch =? quotation_mark)%char
            then Done (LeptParseOK, {| json := String e rest |},
                       set_typ (set_s v stack) LeptSTRING)
            else if (ch =? reverse_solidus)%char
            then match escape e with
                 | Some w => string_loop c v rest (stack ++ w)
                 | None => Done (LeptParseInvalidStringEscape, c, v)
                 end
            else if byte_val ch <? 32
            then Done (LeptParseInvalidStringChar, c, v)
            else string_loop c v (String e rest) (stack ++ String ch "")).
    repeat post_step; simpl; auto.
    + right. now exists (String ch "").
    + intros [[r c'] v'] E. apply IH1 in E. destruct E as [->|[pre ->]];
        [now left|]. right. now exists (String ch (String e pre)).
    + intros [[r c'] v'] E. apply IH2 in E. destruct E as [->|[pre E]];
        [now left|]. right. exists (String ch pre). simpl. now rewrite E.
Qed.

Lemma LeptParseString_consumes (c : LeptContext) (v : LeptValue) :
  post (consumes c) (LeptParseString c v).
Proof.
  unfold LeptParseString. apply post_bind. intros c1 E.
  apply expect_inv in E.
  intros [[r c'] v'] L. apply (proj1 (string_loop_consumes _ _ _)) in L.
  simpl. destruct L as [->|[pre P]].
  - now exists (String quotation_mark "").
  - exists (String quotation_mark pre). rewrite E, P. reflexivity.
Qed.

Lemma LeptParseNumber_consumes (c : LeptContext) (v : LeptValue) :
  post (consumes c) (LeptParseNumber c v).
Proof.
  unfold LeptParseNumber. apply post_bind. intros [[x e] err] E.
  pose proof (strtod_returns_result _ _ E) as [-> _].
  destruct err; apply post_Done; simpl.
  - now exists "".
  - exists (json c). now rewrite string_app_empty_r.
Qed.

Lemma LeptParseValue_suffix (c : LeptContext) (v : LeptValue) :
  post (consumes c) (LeptParseValue c v).
Proof.
  unfold LeptParseValue. repeat post_step.
  - simpl. now exists "".
  - apply LeptParseNull_consumes.
  - apply LeptParseTrue_consumes.
  - apply LeptParseFalse_consumes.
  - apply LeptParseString_consumes.
  - apply LeptParseNumber_consumes.
Qed.

(** X17.  Whatever LeptParseValue returns, the cursor it leaves is a
    suffix of the cursor it was given, and when it returns OK it has
    consumed at least one byte. *)
Theorem LeptParseValue_consumes (c c' : LeptContext) (v v' : LeptValue)
  (ret : Z) :
  LeptParseValue c v = Done (ret, c', v') ->
  (exists pre, json c = pre ++ json c')
  /\ (ret = LeptParseOK ->
      (String.length (json c') < String.length (json c))%nat).
Proof.
  intros E. split.
  - exact (LeptParseValue_suffix c v _ E).
  - intros ->. apply LeptParseValue_ok in E.
    destruct E as [[J _]|[[J _]|[[J _]|[(p & w & J & _)|[J (x & S & _)]]]]];
      rewrite J; simpl; try lia.
    + rewrite string_length_app. simpl. lia.
    + destruct (json c); [discriminate | simpl; lia].
Qed.

Lemma LeptParseValue_consumes_witness :
  exists pre, "nuxx" = pre ++ "uxx".
Proof.
  apply (proj1 (LeptParseValue_consumes {| json := "nuxx" |} {| json := "uxx" |}
                  NewLeptValue NewLeptValue LeptParseInvalidValue eq_refl)).
Defined.

(** ** A zero with a large exponent *)

Lemma Pow10_large (k : Z) : 308 < k -> math.Pow10 k = S754_infinity false.
Proof.
  intros H. unfold math.Pow10.
  destruct (Z.leb_spec 0 k); [|lia].
  destruct (Z.leb_spec k 308); [lia|]. simpl.
  destruct (Z.leb_spec k 0); [lia|]. rewrite andb_false_r.
  destruct (Z.ltb_spec 0 k); [reflexivity | lia].
Qed.

(** X18.  A zero with an exponent above 308 that is not negative is
    parsed with the result OK to a NaN: the zero is multiplied by the
    infinity that Pow10 returns. *)
Theorem zero_with_large_exponent_is_nan (v : LeptValue) (ws : string)
  (neg : bool) (c : ascii) (sg ed : string) :
  all_bytes isSpace ws = true ->
  (c = "e" \/ c = "E")%char -> (sg = "" \/ sg = "+") ->
  fits ed -> 308 < digits_value ed ->
  LeptParse (Some v) (ws ++ minus neg ++ "0" ++ String c (sg ++ ed))
  = Done (LeptParseOK, set_typ (set_n v S754_nan) LeptNUMBER).
Proof.
  intros Hws Hc Hs F Big.
  pose (np := mkNumberParts neg "0" None (Some (c, sg, ed))).
  assert (W : number_wf np).
  { split; [|split; [|split]].
    - split; [split; [discriminate | reflexivity] | vm_compute; discriminate].
    - now left.
    - exact I.
    - split; [exact Hc | split; [|exact F]].
      destruct Hs as [->| ->]; auto. }
  pose proof (LeptParse_number_ok v ws np Hws W) as P.
  unfold number_render in P. simpl in P. simpl. rewrite P.
  repeat f_equal. unfold number_value, frac_exp_value. simpl.
  replace ((sg =? "-")%string) with false
    by (destruct Hs as [->| ->]; reflexivity).
  rewrite (Pow10_large _ Big). now destruct neg.
Qed.

Lemma zero_with_large_exponent_is_nan_witness :
  LeptParse (Some NewLeptValue) (" " ++ minus true ++ "0" ++ String "e" ("+" ++ "309"))
  = Done (LeptParseOK, set_typ (set_n NewLeptValue S754_nan) LeptNUMBER).
Proof.
  apply zero_with_large_exponent_is_nan.
  - reflexivity.
  - now left.
  - now right.
  - repeat split; [discriminate | vm_compute; discriminate].
  - reflexivity.
Defined.


(** ** The number field of a rejected number *)

Lemma strtod_int_junk (neg : bool) (i : string) (t0 : ascii) (tr : string) :
  fits i ->
  (i = "0" \/ stops (fun ch => (ch =? "0")%char) i = true) ->
  isDigit t0 = false ->
  (t0 =? ".")%char = false -> (t0 =? "e")%char = false ->
  (t0 =? "E")%char = false ->
  strtod (minus neg ++ i ++ String t0 tr)
  = Done (f64_of_int (digits_value i), "", Some IllegalInput).
Proof.
  intros F Hz Ht N1 N2 N3.
  destruct (digits1_first i (proj1 F)) as (d0 & ds & -> & Hd0 & Hds).
  assert (M : (d0 =? "-")%char = false) by now apply digit_differs.
  assert (St : stops isDigit (String t0 tr) = true) by (simpl; now rewrite Ht).
  pose proof (parseInteger_fits (String d0 ds) (String t0 tr) F St) as P.
  simpl append in P.
  change (minus neg ++ String d0 ds ++ String t0 tr)
    with (minus neg ++ String d0 (ds ++ String t0 tr)).
  rewrite (strtod_sign neg d0 (ds ++ String t0 tr) M). cbv zeta.
  autorewrite with go_eval.
  rewrite Hd0. cbn [negb]. rewrite P, bind_Done. cbv iota beta.
  destruct (Ascii.eqb_spec d0 "0") as [->|N0].
  - assert (ds = "") as ->.
    { destruct Hz as [Hz|Hz]; [now injection Hz | discriminate]. }
    simpl append. simpl String.length. cbn [Nat.eqb Nat.ltb Nat.leb].
    autorewrite with go_eval. rewrite N1, N2, N3.
    autorewrite with go_eval. reflexivity.
  - autorewrite with go_eval.
    replace (String.length (String t0 tr) <=? 0)%nat with false by reflexivity.
    unfold strtod_frac_exp. autorewrite with go_eval. rewrite N1, N2, N3.
    reflexivity.
Qed.

(** X19.  A rejected number still writes the number field: when an
    integer part in the range of int is followed by a byte that is not a
    digit, a point, e or E, the entry parse returns InvalidValue and the
    number of the value is float64 of the integer part, without its sign;
    the tag is LeptNULL and nothing is consumed. *)
Theorem rejected_number_writes_field (v : LeptValue) (ws : string)
  (neg : bool) (i : string) (t0 : ascii) (tr : string) :
  all_bytes isSpace ws = true -> fits i ->
  (i = "0" \/ stops (fun ch => (ch =? "0")%char) i = true) ->
  isDigit t0 = false -> t0 <> "."%char -> t0 <> "e"%char -> t0 <> "E"%char ->
  LeptParse (Some v) (ws ++ minus neg ++ i ++ String t0 tr)
  = Done (LeptParseInvalidValue,
          set_n (set_typ v LeptNULL) (f64_of_int (digits_value i)))
  /\ LeptParseNumber {| json := minus neg ++ i ++ String t0 tr |} v
     = Done (LeptParseInvalidValue,
             {| json := minus neg ++ i ++ String t0 tr |},
             set_n v (f64_of_int (digits_value i))).
Proof.
  intros Hws F Hz Ht N1 N2 N3.
  apply Ascii.eqb_neq in N1, N2, N3.
  pose proof (strtod_int_junk neg i t0 tr F Hz Ht N1 N2 N3) as S.
  split.
  - apply (LeptParse_number_error v ws _ _ IllegalInput Hws); [|exact S].
    apply number_start_signed, F.
  - unfold LeptParseNumber. simpl json. rewrite S. reflexivity.
Qed.

Lemma rejected_number_writes_field_witness :
  LeptParse (Some NewLeptValue) (" " ++ minus true ++ "12" ++ String "x" "")
  = Done (LeptParseInvalidValue,
          set_n (set_typ NewLeptValue LeptNULL) (f64_of_int 12)).
Proof.
  apply (rejected_number_writes_field NewLeptValue " " true "12" "x" "");
    try reflexivity; try discriminate.
  - split; [split; [discriminate | reflexivity] | vm_compute; discriminate].
  - now right.
Defined.
